(** * NxOgre::Path -- parsing, normalisation, formatting and composition

    A shallow embedding of the [NxOgre::Path] value type declared in
    [build/source/NxOgrePath.h].  The header declares the class, its fields
    ([mProtocol], [mDrive] on Windows builds, [mFilename], [mExtension],
    [mPortion], [mDirectories], [mAbsolute]) and its operations; the bodies
    of [set], [getString], [operator /], [getParent] and [getDirectory]
    live in [NxOgrePath.cpp], which is not part of the sources at hand.
    Those bodies are therefore modelled from the design document; each such
    definition says so in its doc comment.

    Strings ([NxOgre::String]) are lists of characters.  Drive letters are
    a Windows-only feature ([#if NxOgrePlatform == NxOgrePlatformWindows]);
    the platform is the section variable [drives]. *)

From Stdlib Require Import List Ascii Bool Arith Lia.
From Stdlib Require Import String.
Import ListNotations.
Open Scope list_scope.

Definition str := list ascii.

(** String literals of the development. *)
Definition lit (s : String.string) : str := String.list_ascii_of_string s.

(** ** Character and string helpers *)

Definition is_nil {A} (l : list A) : bool :=
  match l with [] => true | _ => false end.

Fixpoint str_eqb (a b : str) : bool :=
  match a, b with
  | [], [] => true
  | x :: a', y :: b' => Ascii.eqb x y && str_eqb a' b'
  | _, _ => false
  end.

Definition is_alpha (c : ascii) : bool :=
  let n := nat_of_ascii c in
  (Nat.leb 65 n && Nat.leb n 90) || (Nat.leb 97 n && Nat.leb n 122).

Definition slash : ascii := "/"%char.
Definition colon : ascii := ":"%char.
Definition hash : ascii := "#"%char.
Definition dot : ascii := "."%char.

(** ** The data model: [class Path] *)

Record Path := mkPath {
  protocol    : str;        (* mProtocol *)
  drive       : str;        (* mDrive, empty when there is none *)
  directories : list str;   (* mDirectories, root to leaf *)
  filename    : str;        (* mFilename, with its extension *)
  extension   : str;        (* mExtension *)
  portion     : str;        (* mPortion *)
  absolute    : bool        (* mAbsolute *)
}.

(** [Path::BAD_PATH]: the empty path, every field cleared ([Path::clear]). *)
Definition BAD_PATH : Path :=
  {| protocol := []; drive := []; directories := []; filename := [];
     extension := []; portion := []; absolute := false |}.

(** ** Parser pieces ([Path::set]) *)

(** Does the string start with the protocol separator ["://"]? *)
Definition starts_sep (s : str) : bool :=
  match s with
  | a :: b :: c :: _ => Ascii.eqb a colon && Ascii.eqb b slash && Ascii.eqb c slash
  | _ => false
  end.

(** Split at the first ["://"]: the protocol and what follows. *)
Fixpoint split_protocol (s : str) : option (str * str) :=
  match s with
  | [] => None
  | c :: t =>
      if starts_sep s then Some ([], skipn 3 s)
      else match split_protocol t with
           | Some (p, r) => Some (c :: p, r)
           | None => None
           end
  end.

(** A leading drive token [X:]: one letter followed by a colon. *)
Definition split_drive (s : str) : option (ascii * str) :=
  match s with
  | c :: d :: r => if is_alpha c && Ascii.eqb d colon then Some (c, r) else None
  | _ => None
  end.

(** Split at the last ['#']: what precedes it and the portion. *)
Fixpoint split_last_hash (s : str) : option (str * str) :=
  match s with
  | [] => None
  | c :: t =>
      match split_last_hash t with
      | Some (b, p) => Some (c :: b, p)
      | None => if Ascii.eqb c hash then Some ([], t) else None
      end
  end.

(** The fields of a string separated by ['/'], empty fields included. *)
Fixpoint split_on_slash (s : str) : list str :=
  match s with
  | [] => [[]]
  | c :: t =>
      if Ascii.eqb c slash then [] :: split_on_slash t
      else match split_on_slash t with
           | w :: ws => (c :: w) :: ws
           | [] => [[c]]
           end
  end.

(** Non-empty segments: empty segments are collapsed. *)
Definition segments (s : str) : list str :=
  filter (fun t => negb (is_nil t)) (split_on_slash s).

Definition ends_with_slash (s : str) : bool :=
  match rev s with c :: _ => Ascii.eqb c slash | [] => false end.

Definition is_dot_token (t : str) : bool :=
  str_eqb t (lit "."%string) || str_eqb t (lit ".."%string).

Definition is_dotdot (t : str) : bool := str_eqb t (lit ".."%string).

(** Segments into directory tokens and filename: the last segment is the
    filename unless the text ends in ['/'] or it is ["."] or [".."]. *)
Definition split_filename (body : str) : list str * str :=
  let toks := segments body in
  if ends_with_slash body then (toks, [])
  else match rev toks with
       | [] => ([], [])
       | f :: rd => if is_dot_token f then (toks, []) else (rev rd, f)
       end.

(** The extension: what follows the last ['.'] of the filename. *)
Fixpoint after_last_dot (s : str) : option str :=
  match s with
  | [] => None
  | c :: t =>
      match after_last_dot t with
      | Some e => Some e
      | None => if Ascii.eqb c dot then Some t else None
      end
  end.

Definition extension_of (f : str) : str :=
  match after_last_dot f with Some e => e | None => [] end.

(** ** The resolver: [".."] pops the last accepted directory, or is dropped. *)
Fixpoint resolve_onto (acc : list str) (toks : list str) : list str :=
  match toks with
  | [] => acc
  | t :: ts =>
      if is_dotdot t then resolve_onto (removelast acc) ts
      else resolve_onto (acc ++ [t]) ts
  end.

Definition resolve (toks : list str) : list str := resolve_onto [] toks.

Section Platform.

(** [true] on builds with drive letters ([NxOgrePlatformWindows]). *)
Variable drives : bool.

(** Protocol and the rest: before the first ["://"], or ["file"] and the
    whole string. *)
Definition protocol_split (s : str) : str * str :=
  match split_protocol s with Some pr => pr | None => (lit "file"%string, s) end.

(** The text after the protocol separator, or the whole string. *)
Definition after_protocol (s : str) : str := snd (protocol_split s).

(** The drive token, on builds with drives. *)
Definition drive_split (r1 : str) : str * str :=
  if drives then
    match split_drive r1 with Some (c, r) => ([c], r) | None => ([], r1) end
  else ([], r1).

(** Body and portion. *)
Definition portion_split (r2 : str) : str * str :=
  match split_last_hash r2 with Some bp => bp | None => (r2, []) end.

Definition starts_with_slash (s : str) : bool :=
  match s with c :: _ => Ascii.eqb c slash | [] => false end.

(** Modelled from the spec: the body of [Path::set] (NxOgrePath.cpp) is not
    in the sources.  Design document, 4.1: empty string to [BAD_PATH];
    protocol before the first ["://"] or ["file"]; a leading drive token;
    the portion after the last ['#']; segments split on ['/'], the last one
    the filename; [".."] resolved; absolute when a drive or a leading
    ['/'] is present. *)
Definition parse (s : str) : Path :=
  match s with
  | [] => BAD_PATH
  | _ :: _ =>
    let '(proto, r1) := protocol_split s in
    let '(drv, r2) := drive_split r1 in
    let '(body, port) := portion_split r2 in
    let '(toks, fname) := split_filename body in
    {| protocol := proto;
       drive := drv;
       directories := resolve toks;
       filename := fname;
       extension := extension_of fname;
       portion := port;
       absolute := negb (is_nil drv) || starts_with_slash r1 |}
  end.

(** The directory-and-filename text of [s], as [parse] isolates it. *)
Definition path_body (s : str) : str :=
  fst (portion_split (snd (drive_split (after_protocol s)))).

Definition count_hash (s : str) : nat :=
  List.length (filter (fun c => Ascii.eqb c hash) s).

(** A well-formed path string: non-empty, at most one ['#'] after the
    protocol separator, and no [".."] segment. *)
Definition wf_path_string (s : str) : bool :=
  negb (is_nil s)
  && Nat.leb (count_hash (after_protocol s)) 1
  && forallb (fun t => negb (is_dotdot t)) (segments (path_body s)).

End Platform.

(** Modelled from the spec: the body of [Path::getString] is not in the
    sources.  Design document, 4.4: protocol, ["://"], the drive and [':']
    when there is one, each directory followed by ['/'], the filename (its
    extension included), and ['#'] with the portion when there is one; the
    root ['/'] of an absolute path is written after the drive, as in the
    header's format [protocol://drive:/dir1/...] and its example
    [file:///home/franky/Desktop/file.nxs] (NxOgrePath.h). *)
Definition getString (p : Path) : str :=
  protocol p ++ lit "://"%string
  ++ (if is_nil (drive p) then [] else drive p ++ [colon])
  ++ (if absolute p then [slash] else [])
  ++ List.concat (map (fun d => d ++ [slash]) (directories p))
  ++ filename p
  ++ (if is_nil (portion p) then [] else hash :: portion p).


(** Modelled from the spec: the bodies of [Path::operator /] are not in the
    sources.  Design document, 4.3: protocol, drive and absolute flag of
    [a]; the directories of [a], then the filename of [a] demoted to a
    directory when there is one, then the directories of [b], each [".."]
    resolved against the growing sequence; filename, extension and portion
    of [b]. *)
Definition div (a b : Path) : Path :=
  {| protocol := protocol a;
     drive := drive a;
     directories :=
       resolve_onto (directories a ++ (if is_nil (filename a) then [] else [filename a]))
                    (directories b);
     filename := filename b;
     extension := extension b;
     portion := portion b;
     absolute := absolute a |}.

Section Platform2.

Variable drives : bool.

(** [Path operator /(const String&)] and [(const char* s)]: the right operand
    goes through the [Path] constructor first (design document, 9). *)
Definition div_str (a : Path) (s : str) : Path := div a (parse drives s).

End Platform2.

(** Modelled from the spec: the body of [Path::getParent] is not in the
    sources.  Design document, 4.4: with a filename, the containing
    directory (filename dropped); with one directory and no filename, the
    drive alone; otherwise the path with its last directory removed. *)
Definition getParent (p : Path) : Path :=
  if negb (is_nil (filename p)) then
    {| protocol := protocol p; drive := drive p; directories := directories p;
       filename := []; extension := []; portion := []; absolute := absolute p |}
  else match directories p with
       | [_] =>
         {| protocol := protocol p; drive := drive p; directories := [];
            filename := []; extension := []; portion := []; absolute := absolute p |}
       | ds =>
         {| protocol := protocol p; drive := drive p; directories := removelast ds;
            filename := filename p; extension := extension p; portion := portion p;
            absolute := absolute p |}
       end.

(** [Path::getNbDirectories]. *)
Definition getNbDirectories (p : Path) : nat := List.length (directories p).

(** Modelled from the spec: the body of [Path::getDirectory] is not in the
    sources.  Design document, 4.5 and 7: the directory at depth [n] counted
    from the leaf end, [0] the innermost; [None] is the out-of-range error. *)
Definition getDirectory (p : Path) (parent_level : nat) : option str :=
  nth_error (rev (directories p)) parent_level.

(** ** The receiver as state: [operator /=] *)

Definition PathM (A : Type) : Type := Path -> A * Path.

Definition ret {A} (x : A) : PathM A := fun p => (x, p).
Definition bind {A B} (m : PathM A) (k : A -> PathM B) : PathM B :=
  fun p => let '(x, p') := m p in k x p'.
Notation "x <- m ;; k" := (bind m (fun x => k)) (at level 61, m at next level, right associativity).

Definition modify (f : Path -> Path) : PathM unit := fun p => (tt, f p).

(** Modelled from the spec: [Path& operator /=(const Path&)] replaces the
    receiver with the result of [/] (design document, 4.3 and 9). *)
Definition div_assign (b : Path) : PathM unit := modify (fun a => div a b).

Section Platform3.

Variable drives : bool.

(** [operator /=(const String&)] and [operator /=(const char* s)]. *)
Definition div_assign_str (s : str) : PathM unit := div_assign (parse drives s).

(** Paths built by the public surface: construction from a string, and
    [/] with a [Path] or a string on the right. *)
Inductive path_expr : Type :=
| PNew (s : str)
| PDiv (a b : path_expr)
| PDivStr (a : path_expr) (s : str).

Fixpoint eval (e : path_expr) : Path :=
  match e with
  | PNew s => parse drives s
  | PDiv a b => div (eval a) (eval b)
  | PDivStr a s => div_str drives (eval a) s
  end.

(** A statement [p /= ...;] on a [Path] variable. *)
Inductive assign_op : Type :=
| ADiv (e : path_expr)
| ADivStr (s : str).

Definition exec_op (o : assign_op) : PathM unit :=
  match o with
  | ADiv e => div_assign (eval e)
  | ADivStr s => div_assign_str s
  end.

Fixpoint exec_ops (os : list assign_op) : PathM unit :=
  match os with
  | [] => ret tt
  | o :: os' => _ <- exec_op o ;; exec_ops os'
  end.

End Platform3.

(** A single path segment: non-empty, without ['/'] or ['#'], neither
    ["."] nor [".."], and not a drive token on builds with drives. *)
Definition plain_segment (drives : bool) (x : str) : bool :=
  negb (is_nil x)
  && forallb (fun c => negb (Ascii.eqb c slash) && negb (Ascii.eqb c hash)) x
  && negb (is_dot_token x)
  && (if drives then match split_drive x with Some _ => false | None => true end
      else true).

(** ** Further accessors *)

(** [Path::hasFilename]. *)
Definition hasFilename (p : Path) : bool := negb (is_nil (filename p)).

(** [Path::hasExtension]. *)
Definition hasExtension (p : Path) : bool := negb (is_nil (extension p)).

(** Modelled from the spec: the body of [Path::getFilenameOnly] is not in
    the sources.  Header: "Get just the filename (no extension)"; design
    document, 3: the filename up to its last ['.']. *)
Definition getFilenameOnly (p : Path) : str :=
  match after_last_dot (filename p) with
  | Some e => firstn (List.length (filename p) - List.length e - 1) (filename p)
  | None => filename p
  end.

(** ** Predicates of the development *)

Definition nodd (t : str) : Prop := is_dotdot t = false.

Definition no_char (x : ascii) (s : str) : Prop :=
  forallb (fun c => negb (Ascii.eqb c x)) s = true.

(** The invariant of every [Path] the public surface builds. *)
Definition good (p : Path) : Prop :=
  Forall nodd (directories p)
  /\ is_dot_token (filename p) = false
  /\ extension p = extension_of (filename p).

(** The shape every built [Path] keeps: directory entries are non-empty
    and contain no ['/'], the filename contains no ['/'], the portion no
    ['#']. *)
Definition well_shaped (p : Path) : Prop :=
  Forall (fun d => d <> [] /\ no_char slash d) (directories p)
  /\ no_char slash (filename p)
  /\ no_char hash (portion p).

(** * Properties *)


(** Case analysis through the stages of [parse]. *)
Ltac break_parse :=
  repeat match goal with
  | |- context [match ?x with _ => _ end] =>
      lazymatch x with
      | context [match _ with _ => _ end] => fail
      | _ => destruct x eqn:?
      end
  end.

Lemma split_filename_name_not_dot (b : str) :
  is_dot_token (snd (split_filename b)) = false.
Proof.
  unfold split_filename.
  destruct (ends_with_slash b); [reflexivity|].
  destruct (rev (segments b)) as [|f rd]; [reflexivity|].
  destruct (is_dot_token f) eqn:E; [reflexivity|exact E].
Qed.

Lemma dot_token_dotdot (t : str) : is_dot_token t = false -> nodd t.
Proof. unfold is_dot_token, nodd, is_dotdot. intro H. apply orb_false_iff in H. tauto. Qed.

Lemma Forall_removelast {A} (P : A -> Prop) (l : list A) :
  Forall P l -> Forall P (removelast l).
Proof.
  induction l as [|x l IH]; simpl; intro H; [constructor|].
  inversion H; subst. destruct l; [constructor|]. constructor; auto.
Qed.

Lemma resolve_onto_nodd (acc ts : list str) :
  Forall nodd acc -> Forall nodd (resolve_onto acc ts).
Proof.
  revert acc; induction ts as [|t ts IH]; intros acc H; simpl; [exact H|].
  destruct (is_dotdot t) eqn:E; apply IH.
  - now apply Forall_removelast.
  - apply Forall_app; split; [exact H|]. constructor; [exact E|constructor].
Qed.

Lemma resolve_onto_plain (acc ts : list str) :
  Forall nodd ts -> resolve_onto acc ts = acc ++ ts.
Proof.
  revert acc; induction ts as [|t ts IH]; intros acc H; simpl.
  - now rewrite app_nil_r.
  - inversion H; subst. unfold nodd in *. rewrite H2, IH by assumption.
    now rewrite <- app_assoc.
Qed.

Lemma resolve_onto_app (acc ts1 ts2 : list str) :
  resolve_onto acc (ts1 ++ ts2) = resolve_onto (resolve_onto acc ts1) ts2.
Proof.
  revert acc; induction ts1 as [|t ts IH]; intro acc; simpl; [reflexivity|].
  destruct (is_dotdot t); apply IH.
Qed.

Lemma parse_directories_nodd (drives : bool) (s : str) :
  Forall nodd (directories (parse drives s)).
Proof.
  unfold parse. destruct s as [|c s']; [constructor|].
  break_parse; simpl; apply resolve_onto_nodd; constructor.
Qed.

Lemma parse_filename_not_dot (drives : bool) (s : str) :
  is_dot_token (filename (parse drives s)) = false.
Proof.
  unfold parse. destruct s as [|c s']; [reflexivity|].
  break_parse; simpl;
  match goal with
  | E : split_filename ?b = (_, ?f) |- _ =>
      pose proof (split_filename_name_not_dot b) as Hn; rewrite E in Hn; exact Hn
  end.
Qed.

Lemma parse_extension (drives : bool) (s : str) :
  extension (parse drives s) = extension_of (filename (parse drives s)).
Proof.
  unfold parse. destruct s as [|c s']; [reflexivity|]. break_parse; reflexivity.
Qed.


Lemma parse_good (drives : bool) (s : str) : good (parse drives s).
Proof.
  split; [apply parse_directories_nodd|].
  split; [apply parse_filename_not_dot|apply parse_extension].
Qed.

Lemma div_good (a b : Path) : good a -> good b -> good (div a b).
Proof.
  intros [Ha1 [Ha2 Ha3]] [Hb1 [Hb2 Hb3]]. split; [|split]; simpl; auto.
  apply resolve_onto_nodd, Forall_app; split; [exact Ha1|].
  destruct (is_nil (filename a)); [constructor|].
  constructor; [now apply dot_token_dotdot|constructor].
Qed.

Lemma eval_good (drives : bool) (e : path_expr) : good (eval drives e).
Proof.
  induction e; simpl; auto using parse_good, div_good.
  unfold div_str. auto using parse_good, div_good.
Qed.

Lemma exec_ops_fold (drives : bool) (os : list assign_op) (p : Path) :
  exec_ops drives os p
  = (tt, fold_left (fun q o => snd (exec_op drives o q)) os p).
Proof.
  revert p; induction os as [|o os IH]; intro p; [reflexivity|].
  simpl. unfold bind. destruct o; simpl; apply IH.
Qed.

Lemma exec_ops_good (drives : bool) (os : list assign_op) (p : Path) :
  good p -> good (snd (exec_ops drives os p)).
Proof.
  rewrite exec_ops_fold; simpl. revert p.
  induction os as [|o os IH]; intros p Hp; simpl; [exact Hp|].
  apply IH. destruct o; simpl; apply div_good; auto using eval_good, parse_good.
Qed.

(** ** C2: [".."] resolution *)

(** C2 (counterexample): the claim's examples read the final segment as a
    directory, but parsing takes it as the filename:
    [parse "a/b/../c"] has directories [["a"]], not [["a";"c"]], and
    [parse "../a"] has directories [[]], not [["a"]]. *)
Lemma parse_dotdot_examples_cex :
  directories (parse true (lit "a/b/../c"%string)) <> [lit "a"%string; lit "c"%string]
  /\ directories (parse false (lit "a/b/../c"%string)) <> [lit "a"%string; lit "c"%string]
  /\ directories (parse true (lit "../a"%string)) <> [lit "a"%string]
  /\ directories (parse false (lit "../a"%string)) <> [lit "a"%string].
Proof. repeat split; vm_compute; discriminate. Qed.

(** ** C3: no literal [".."] in [directories] *)

(** C3: whatever strings the paths are built from and whatever sequence of
    [/] and [/=] is applied, no directory entry is [".."]. *)
Theorem no_dotdot_in_directories (drives : bool) (e : path_expr) (os : list assign_op) :
  Forall (fun d => is_dotdot d = false) (directories (eval drives e))
  /\ Forall (fun d => is_dotdot d = false)
            (directories (snd (exec_ops drives os (eval drives e)))).
Proof.
  split.
  - apply (eval_good drives e).
  - apply exec_ops_good, eval_good.
Qed.

(** ** C4: composition *)

(** C4: [a / b] takes protocol, drive and absolute flag from [a], the
    filename, extension and portion from [b]; its directories are those of
    [a], then the demoted filename of [a], then those of [b] resolved
    against the growing sequence (for a string operand, simply appended).
    [(Path("a/b/") / "c.txt")] has filename ["c.txt"] and ["b"] among its
    directories. *)
Theorem div_fields (drives : bool) (a b : Path) (s : str) :
  protocol (div a b) = protocol a
  /\ drive (div a b) = drive a
  /\ absolute (div a b) = absolute a
  /\ directories (div a b)
     = resolve_onto (directories a ++ (if is_nil (filename a) then [] else [filename a]))
                    (directories b)
  /\ filename (div a b) = filename b
  /\ extension (div a b) = extension b
  /\ portion (div a b) = portion b
  /\ directories (div_str drives a s)
     = directories a ++ (if is_nil (filename a) then [] else [filename a])
       ++ directories (parse drives s)
  /\ filename (div_str drives (parse drives (lit "a/b/"%string)) (lit "c.txt"%string))
     = lit "c.txt"%string
  /\ In (lit "b"%string)
        (directories (div_str drives (parse drives (lit "a/b/"%string)) (lit "c.txt"%string))).
Proof.
  repeat split; try reflexivity.
  - unfold div_str, div; simpl.
    rewrite resolve_onto_plain by apply parse_directories_nodd.
    now rewrite app_assoc.
  - destruct drives; vm_compute; reflexivity.
  - destruct drives; vm_compute; auto.
Qed.

(** ** C5: parent of a child *)

(** C5 (counterexample): the directory path ["a/#q"] has no filename but a
    portion; [(p / "x").getParent()] loses the portion. *)
Lemma parent_of_child_portion_cex :
  filename (parse true (lit "a/#q"%string)) = []
  /\ getParent (div_str true (parse true (lit "a/#q"%string)) (lit "x"%string))
     <> parse true (lit "a/#q"%string)
  /\ filename (parse false (lit "a/#q"%string)) = []
  /\ getParent (div_str false (parse false (lit "a/#q"%string)) (lit "x"%string))
     <> parse false (lit "a/#q"%string).
Proof. repeat split; vm_compute; try reflexivity; discriminate. Qed.

Lemma no_slash_split_protocol (x : str) :
  forallb (fun c => negb (Ascii.eqb c slash)) x = true -> split_protocol x = None.
Proof.
  induction x as [|c x IH]; intro H; [reflexivity|].
  cbn [split_protocol]; simpl in H.
  apply andb_true_iff in H as [Hc Hx].
  assert (starts_sep (c :: x) = false) as ->.
  { destruct x as [|c1 [|c2 x]]; simpl; try reflexivity.
    simpl in Hx. apply andb_true_iff in Hx as [Hc1 _].
    apply negb_true_iff in Hc1. rewrite Hc1. now rewrite andb_false_r, andb_false_l. }
  now rewrite IH.
Qed.

Lemma no_hash_split_last_hash (x : str) :
  forallb (fun c => negb (Ascii.eqb c hash)) x = true -> split_last_hash x = None.
Proof.
  induction x as [|c x IH]; simpl; intro H; [reflexivity|].
  apply andb_true_iff in H as [Hc Hx]. rewrite IH by exact Hx.
  apply negb_true_iff in Hc. now rewrite Hc.
Qed.

Lemma no_slash_split_on_slash (x : str) :
  forallb (fun c => negb (Ascii.eqb c slash)) x = true -> split_on_slash x = [x].
Proof.
  induction x as [|c x IH]; simpl; intro H; [reflexivity|].
  apply andb_true_iff in H as [Hc Hx]. apply negb_true_iff in Hc.
  rewrite Hc, IH by exact Hx. reflexivity.
Qed.

Lemma no_slash_ends_with_slash (x : str) :
  forallb (fun c => negb (Ascii.eqb c slash)) x = true -> ends_with_slash x = false.
Proof.
  unfold ends_with_slash. intro H.
  destruct (rev x) as [|c r] eqn:E; [reflexivity|].
  assert (In c x) as Hin by (apply in_rev; rewrite E; now left).
  rewrite forallb_forall in H. apply H in Hin. now apply negb_true_iff.
Qed.

Lemma forallb_and {A} (f g : A -> bool) (l : list A) :
  forallb (fun c => f c && g c) l = true ->
  forallb f l = true /\ forallb g l = true.
Proof.
  rewrite !forallb_forall. intro H.
  split; intros c Hc; specialize (H c Hc); apply andb_true_iff in H; tauto.
Qed.

Lemma parse_plain_segment (drives : bool) (x : str) :
  plain_segment drives x = true ->
  directories (parse drives x) = [] /\ filename (parse drives x) = x
  /\ portion (parse drives x) = [].
Proof.
  unfold plain_segment. intro H.
  apply andb_true_iff in H as [H Hd]. apply andb_true_iff in H as [H Hdot].
  apply andb_true_iff in H as [Hne Hc]. apply forallb_and in Hc as [Hs Hh].
  apply negb_true_iff in Hdot.
  destruct x as [|c x']; [discriminate|].
  unfold parse, protocol_split, drive_split, portion_split.
  rewrite no_slash_split_protocol by exact Hs.
  assert (Hsd : drives = false \/ split_drive (c :: x') = None).
  { destruct drives; [|now left]. right.
    destruct (split_drive (c :: x')); [discriminate|reflexivity]. }
  destruct Hsd as [-> | Hsd]; [|rewrite Hsd; destruct drives];
  rewrite no_hash_split_last_hash by exact Hh;
  unfold split_filename, segments;
  rewrite no_slash_ends_with_slash, no_slash_split_on_slash by exact Hs;
  simpl; rewrite Hdot; repeat split.
Qed.

(** C5 (amended): for a directory path [p] built by the public surface,
    with neither filename nor portion, and a single plain segment [x],
    [(p / x).getParent() == p]. *)
Theorem parent_of_child (drives : bool) (e : path_expr) (x : str)
  (Hf : filename (eval drives e) = []) (Hp : portion (eval drives e) = [])
  (Hx : plain_segment drives x = true) :
  getParent (div_str drives (eval drives e) x) = eval drives e.
Proof.
  destruct (eval_good drives e) as [_ [_ He]].
  destruct (parse_plain_segment drives x Hx) as [Hd [Hn Hpo]].
  assert (Hx' : is_nil x = false).
  { unfold plain_segment in Hx. destruct x; [discriminate|reflexivity]. }
  destruct (eval drives e) as [pr dr ds fn ex po ab]; simpl in *; subst.
  unfold div_str, getParent, div; simpl. rewrite Hn, Hd, Hx'; simpl.
  rewrite app_nil_r. reflexivity.
Qed.

(** Witness: [Path("a/b/") / "x"] has parent [Path("a/b/")]. *)
Lemma parent_of_child_witness :
  filename (eval true (PNew (lit "a/b/"%string))) = []
  /\ portion (eval true (PNew (lit "a/b/"%string))) = []
  /\ plain_segment true (lit "x"%string) = true
  /\ getParent (div_str true (eval true (PNew (lit "a/b/"%string))) (lit "x"%string))
     = eval true (PNew (lit "a/b/"%string)).
Proof.
  split; [vm_compute; reflexivity|].
  split; [vm_compute; reflexivity|].
  split; [vm_compute; reflexivity|].
  apply parent_of_child; vm_compute; reflexivity.
Defined.

(** ** C6: the protocol *)

(** C6 (counterexample): ["://a"] has an explicit, empty protocol prefix, so
    the parsed protocol is empty. *)
Lemma parse_protocol_empty_cex :
  protocol (parse true (lit "://a"%string)) = []
  /\ protocol (parse false (lit "://a"%string)) = [].
Proof. split; vm_compute; reflexivity. Qed.

Lemma split_protocol_nil_prefix (s r : str) :
  split_protocol s = Some ([], r) -> starts_sep s = true.
Proof.
  destruct s as [|c t]; cbn [split_protocol]; [discriminate|].
  destruct (starts_sep (c :: t)); [reflexivity|].
  destruct (split_protocol t) as [[p r']|]; discriminate.
Qed.

Lemma parse_protocol_eq (drives : bool) (s : str) :
  s <> [] ->
  protocol (parse drives s)
  = match split_protocol s with Some (p, _) => p | None => lit "file"%string end.
Proof.
  intro Hs. destruct s as [|c s']; [congruence|].
  unfold parse, protocol_split. destruct (split_protocol (c :: s')) as [[p r]|]; break_parse; reflexivity.
Qed.

(** C6 (amended): the protocol of a parsed non-empty string is the text
    before its first ["://"] when there is one, ["file"] otherwise; it is
    non-empty unless the string starts with ["://"].
    [parse "C:/Games/g.exe"] has protocol ["file"]; [parse "zip://a.zip#b.txt"]
    has protocol ["zip"] and portion ["b.txt"]. *)
Theorem parse_protocol (drives : bool) (s : str) (Hs : s <> []) :
  protocol (parse drives s)
  = match split_protocol s with Some (p, _) => p | None => lit "file"%string end
  /\ (starts_sep s = false -> protocol (parse drives s) <> [])
  /\ protocol (parse drives (lit "C:/Games/g.exe"%string)) = lit "file"%string
  /\ protocol (parse drives (lit "zip://a.zip#b.txt"%string)) = lit "zip"%string
  /\ portion (parse drives (lit "zip://a.zip#b.txt"%string)) = lit "b.txt"%string.
Proof.
  split; [now apply parse_protocol_eq|].
  split.
  - intros Hn. rewrite (parse_protocol_eq drives s Hs).
    destruct (split_protocol s) as [[p r]|] eqn:E; [|discriminate].
    destruct p; [|discriminate].
    apply split_protocol_nil_prefix in E. congruence.
  - destruct drives; repeat split; vm_compute; reflexivity.
Qed.

(** Witness of [parse_protocol]. *)
Lemma parse_protocol_witness :
  protocol (parse true (lit "zip://a.zip#b.txt"%string)) = lit "zip"%string
  /\ protocol (parse true (lit "zip://a.zip#b.txt"%string)) <> [].
Proof.
  destruct (parse_protocol true (lit "zip://a.zip#b.txt"%string)) as [H1 [H2 _]];
    [discriminate|].
  split; [rewrite H1; vm_compute; reflexivity|].
  apply H2. vm_compute. reflexivity.
Defined.

(** ** C7: [getDirectory] *)

(** C7: [getDirectory p n] is the out-of-range error ([None]) exactly when
    [n >= getNbDirectories p]; below, it is the directory at depth [n] from
    the leaf end ([0] the innermost).  For
    [Path("c:/Program Files/My Game/Game.exe")], level [0] is ["My Game"]
    and level [1] is ["Program Files"]. *)
Theorem getDirectory_spec (drives : bool) (p : Path) (n : nat) :
  getDirectory p n
  = (if n <? getNbDirectories p
     then Some (nth (getNbDirectories p - S n) (directories p) [])
     else None)
  /\ getDirectory (parse drives (lit "c:/Program Files/My Game/Game.exe"%string)) 0
     = Some (lit "My Game"%string)
  /\ getDirectory (parse drives (lit "c:/Program Files/My Game/Game.exe"%string)) 1
     = Some (lit "Program Files"%string).
Proof.
  split; [|destruct drives; split; vm_compute; reflexivity].
  unfold getDirectory, getNbDirectories.
  destruct (Nat.ltb_spec n (List.length (directories p))) as [Hlt|Hge].
  - erewrite nth_error_nth' by (rewrite length_rev; exact Hlt).
    rewrite rev_nth by exact Hlt. reflexivity.
  - apply nth_error_None. now rewrite length_rev.
Qed.

(** ** C8: the empty string *)

(** C8: the empty string parses to [BAD_PATH], whose protocol and other
    fields are empty, whose directories are empty and which is relative. *)
Theorem parse_empty_is_BAD_PATH (drives : bool) :
  parse drives [] = BAD_PATH
  /\ protocol BAD_PATH = [] /\ drive BAD_PATH = [] /\ directories BAD_PATH = []
  /\ filename BAD_PATH = [] /\ extension BAD_PATH = [] /\ portion BAD_PATH = []
  /\ absolute BAD_PATH = false.
Proof. repeat split. Qed.

(** ** Lemmas for the round trip [parse (getString p) = p] *)

Lemma starts_sep_indep (c : ascii) (x y z : str) :
  starts_sep (c :: x ++ lit "://"%string ++ y) = starts_sep (c :: x ++ lit "://"%string ++ z).
Proof. destruct x as [|a [|b x]]; reflexivity. Qed.

Lemma split_protocol_some (s x y : str) :
  split_protocol s = Some (x, y) -> s = x ++ lit "://"%string ++ y.
Proof.
  revert x y; induction s as [|c t IH]; intros x y H; [discriminate|].
  cbn [split_protocol] in H.
  destruct (starts_sep (c :: t)) eqn:Es.
  - injection H as <- <-.
    destruct t as [|a [|b t]]; try discriminate. simpl in Es |- *.
    apply andb_true_iff in Es as [Es Eb]. apply andb_true_iff in Es as [Ec Ea].
    apply Ascii.eqb_eq in Ec, Ea, Eb. subst. reflexivity.
  - destruct (split_protocol t) as [[p r]|] eqn:Et; [|discriminate].
    injection H as <- <-. simpl. f_equal. now apply IH.
Qed.

Lemma split_protocol_app (s x y z : str) :
  split_protocol s = Some (x, y) ->
  split_protocol (x ++ lit "://"%string ++ z) = Some (x, z).
Proof.
  revert s y; induction x as [|c x IH]; intros s y H; [reflexivity|].
  pose proof (split_protocol_some _ _ _ H) as Hs. subst s.
  rewrite <- !app_comm_cons in *.
  cbn [split_protocol] in H |- *.
  rewrite (starts_sep_indep c x z y).
  destruct (starts_sep (c :: x ++ lit "://"%string ++ y)); [discriminate|].
  destruct (split_protocol (x ++ lit "://"%string ++ y)) as [[p r]|] eqn:Et;
    [|discriminate].
  injection H as Hp _. subst p. now rewrite (IH _ _ Et).
Qed.

Lemma split_drive_some (c : ascii) (r' s : str) :
  split_drive s = Some (c, r') -> s = c :: colon :: r' /\ is_alpha c = true.
Proof.
  destruct s as [|a [|b t]]; simpl; try discriminate.
  destruct (is_alpha a) eqn:Ea; simpl; [|discriminate].
  destruct (Ascii.eqb b colon) eqn:Eb; [|discriminate].
  apply Ascii.eqb_eq in Eb. intro H; injection H as <- <-. subst. auto.
Qed.


Lemma no_char_app (x : ascii) (a b : str) :
  no_char x (a ++ b) <-> no_char x a /\ no_char x b.
Proof. unfold no_char. rewrite forallb_app. apply andb_true_iff. Qed.

Lemma no_char_in (x : ascii) (s : str) :
  no_char x s <-> (forall c, In c s -> c <> x).
Proof.
  unfold no_char. rewrite forallb_forall. split; intros H c Hc.
  - specialize (H c Hc). apply negb_true_iff, Ascii.eqb_neq in H. exact H.
  - apply negb_true_iff, Ascii.eqb_neq. now apply H.
Qed.

Lemma split_last_hash_some (s b p : str) :
  split_last_hash s = Some (b, p) -> s = b ++ hash :: p /\ no_char hash p.
Proof.
  revert b p; induction s as [|c t IH]; intros b p H; [discriminate|].
  simpl in H. destruct (split_last_hash t) as [[b' p']|] eqn:Et.
  - injection H as <- <-. destruct (IH _ _ eq_refl) as [-> Hp]. auto.
  - destruct (Ascii.eqb c hash) eqn:Ec; [|discriminate].
    injection H as <- <-. apply Ascii.eqb_eq in Ec. subst. split; [reflexivity|].
    clear IH. induction t as [|a t IHt]; [reflexivity|].
    simpl in Et. destruct (split_last_hash t) as [[? ?]|]; [discriminate|].
    destruct (Ascii.eqb a hash) eqn:Ea; [discriminate|].
    unfold no_char; simpl. rewrite Ea. apply IHt. reflexivity.
Qed.

Lemma split_last_hash_none (s : str) :
  split_last_hash s = None -> no_char hash s.
Proof.
  induction s as [|c t IH]; intro H; [reflexivity|].
  simpl in H. destruct (split_last_hash t) as [[? ?]|]; [discriminate|].
  destruct (Ascii.eqb c hash) eqn:Ec; [discriminate|].
  unfold no_char; simpl. rewrite Ec. apply IH. reflexivity.
Qed.

Lemma split_last_hash_app (b p : str) :
  no_char hash p -> split_last_hash (b ++ hash :: p) = Some (b, p).
Proof.
  intro Hp. induction b as [|c b IH]; simpl.
  - rewrite no_hash_split_last_hash by exact Hp. reflexivity.
  - now rewrite IH.
Qed.

Lemma split_on_slash_nonnil (s : str) : split_on_slash s <> [].
Proof.
  induction s as [|c t IH]; simpl; [discriminate|].
  destruct (Ascii.eqb c slash); [discriminate|].
  destruct (split_on_slash t); discriminate.
Qed.

Lemma split_on_slash_chars (s t : str) :
  In t (split_on_slash s) -> forall c, In c t -> In c s /\ c <> slash.
Proof.
  revert t; induction s as [|a s IH]; intros t Ht c Hc.
  - simpl in Ht. destruct Ht as [<-|[]]. destruct Hc.
  - simpl in Ht. destruct (Ascii.eqb a slash) eqn:Ea.
    + destruct Ht as [<-|Ht]; [destruct Hc|].
      destruct (IH t Ht c Hc). split; [now right|assumption].
    + destruct (split_on_slash s) as [|w ws] eqn:Es.
      * destruct Ht as [<-|[]]. destruct Hc as [<-|[]].
        split; [now left|]. now apply Ascii.eqb_neq.
      * destruct Ht as [<-|Ht].
        -- destruct Hc as [<-|Hc].
           ++ split; [now left|]. now apply Ascii.eqb_neq.
           ++ destruct (IH w (or_introl eq_refl) c Hc). split; [now right|assumption].
        -- destruct (IH t (or_intror Ht) c Hc). split; [now right|assumption].
Qed.

Lemma split_on_slash_app (d r : str) :
  no_char slash d -> split_on_slash (d ++ slash :: r) = d :: split_on_slash r.
Proof.
  intro Hd. induction d as [|c d IH]; simpl.
  - reflexivity.
  - unfold no_char in Hd; simpl in Hd. apply andb_true_iff in Hd as [Hc Hd].
    apply negb_true_iff in Hc. rewrite Hc, IH by exact Hd. reflexivity.
Qed.

Lemma split_on_slash_head (s w : str) (ws : list str) :
  split_on_slash s = w :: ws ->
  exists rest, s = w ++ rest /\ (rest = [] \/ exists r', rest = slash :: r').
Proof.
  revert w ws; induction s as [|c t IH]; intros w ws H.
  - simpl in H. injection H as <- _. exists []. auto.
  - simpl in H. destruct (Ascii.eqb c slash) eqn:Ec.
    + injection H as <- _. apply Ascii.eqb_eq in Ec. subst.
      exists (slash :: t). split; [reflexivity|]. right. eauto.
    + destruct (split_on_slash t) as [|w' ws'] eqn:Et.
      * exfalso. exact (split_on_slash_nonnil t Et).
      * injection H as <- _. destruct (IH w' ws' eq_refl) as [rest [-> Hr]].
        exists rest. split; [reflexivity|exact Hr].
Qed.

Lemma segments_nonempty (s t : str) : In t (segments s) -> t <> [].
Proof.
  unfold segments. rewrite filter_In. intros [_ H] ->. discriminate.
Qed.

Lemma segments_chars (s t : str) :
  In t (segments s) -> forall c, In c t -> In c s /\ c <> slash.
Proof.
  unfold segments. rewrite filter_In. intros [H _]. now apply split_on_slash_chars.
Qed.

Lemma split_filename_segments (b f : str) (toks : list str) :
  split_filename b = (toks, f) ->
  toks ++ (if is_nil f then [] else [f]) = segments b.
Proof.
  unfold split_filename. intro H.
  destruct (ends_with_slash b).
  - injection H as <- <-. apply app_nil_r.
  - destruct (rev (segments b)) as [|g rd] eqn:Er.
    + injection H as <- <-. simpl.
      apply (f_equal (@rev str)) in Er. rewrite rev_involutive in Er. now rewrite Er.
    + destruct (is_dot_token g).
      * injection H as <- <-. apply app_nil_r.
      * injection H as <- <-.
        assert (Hg : g <> []).
        { apply (segments_nonempty b). apply in_rev. rewrite Er. now left. }
        destruct g as [|a g]; [congruence|]. simpl.
        rewrite <- (rev_involutive (segments b)), Er. reflexivity.
Qed.

Lemma split_on_slash_render (ds : list str) (f : str) :
  Forall (no_char slash) ds -> no_char slash f ->
  split_on_slash (List.concat (map (fun d => d ++ [slash]) ds) ++ f) = ds ++ [f].
Proof.
  intros Hds Hf. induction Hds as [|d ds Hd Hds IH]; simpl.
  - now apply no_slash_split_on_slash.
  - rewrite <- !app_assoc. simpl. rewrite split_on_slash_app by exact Hd.
    now rewrite IH.
Qed.

Lemma ends_with_slash_render (ds : list str) (f : str) :
  no_char slash f ->
  ends_with_slash (List.concat (map (fun d => d ++ [slash]) ds) ++ f)
  = (if is_nil f then negb (is_nil ds) else false).
Proof.
  intro Hf. unfold ends_with_slash. rewrite rev_app_distr.
  destruct f as [|c f].
  - simpl. destruct ds as [|d ds] using rev_ind; [reflexivity|].
    rewrite map_app, concat_app. simpl. rewrite app_nil_r, !rev_app_distr. simpl.
    now destruct ds.
  - destruct (rev (c :: f)) as [|a r] eqn:Er.
    + simpl in Er. now destruct (rev f).
    + simpl. apply Ascii.eqb_neq. apply (proj1 (no_char_in slash (c :: f)) Hf).
      apply in_rev. rewrite Er. now left.
Qed.

Lemma filter_nonempty_all (ds : list str) :
  Forall (fun d => d <> []) ds -> filter (fun t => negb (is_nil t)) ds = ds.
Proof.
  induction 1 as [|d ds Hd _ IH]; simpl; [reflexivity|].
  destruct d; [congruence|]. simpl. now rewrite IH.
Qed.

Lemma split_filename_render (ds : list str) (f : str) :
  Forall (fun d => d <> [] /\ no_char slash d) ds -> no_char slash f ->
  is_dot_token f = false ->
  split_filename (List.concat (map (fun d => d ++ [slash]) ds) ++ f) = (ds, f).
Proof.
  intros Hds Hf Hdot. unfold split_filename, segments.
  rewrite ends_with_slash_render by exact Hf.
  assert (Hs : Forall (no_char slash) ds)
    by (eapply Forall_impl; [|exact Hds]; intros d [_ H]; exact H).
  assert (Hn : Forall (fun d => d <> []) ds)
    by (eapply Forall_impl; [|exact Hds]; intros d [H _]; exact H).
  rewrite split_on_slash_render by assumption.
  rewrite filter_app, filter_nonempty_all by exact Hn.
  destruct f as [|c f]; simpl.
  - rewrite app_nil_r. destruct ds; reflexivity.
  - rewrite rev_app_distr. simpl. rewrite Hdot, rev_involutive. reflexivity.
Qed.

Lemma parse_stages (drives : bool) (s proto r1 drv r2 body port fname : str)
  (toks : list str) :
  s <> [] ->
  protocol_split s = (proto, r1) ->
  drive_split drives r1 = (drv, r2) ->
  portion_split r2 = (body, port) ->
  split_filename body = (toks, fname) ->
  parse drives s =
  {| protocol := proto; drive := drv; directories := resolve toks;
     filename := fname; extension := extension_of fname; portion := port;
     absolute := negb (is_nil drv) || starts_with_slash r1 |}.
Proof.
  intros Hs E1 E2 E3 E4. destruct s as [|c s']; [congruence|].
  unfold parse. rewrite E1, E2, E3, E4. reflexivity.
Qed.

Lemma count_hash_app (a b : str) :
  count_hash (a ++ b) = count_hash a + count_hash b.
Proof. unfold count_hash. now rewrite filter_app, length_app. Qed.

Lemma count_hash_zero (b : str) : count_hash b = 0 -> no_char hash b.
Proof.
  induction b as [|c b IH]; intro H; [reflexivity|].
  unfold count_hash in H; simpl in H. unfold no_char; simpl.
  destruct (Ascii.eqb c hash); [discriminate|]. simpl. now apply IH.
Qed.

Lemma count_hash_cons (c : ascii) (r : str) : count_hash r <= count_hash (c :: r).
Proof. unfold count_hash; simpl. destruct (Ascii.eqb c hash); simpl; lia. Qed.

Lemma no_char_render (x : ascii) (ds : list str) (f : str) :
  x <> slash -> Forall (no_char x) ds -> no_char x f ->
  no_char x (List.concat (map (fun d => d ++ [slash]) ds) ++ f).
Proof.
  intros Hx Hds Hf. induction Hds as [|d ds Hd _ IH]; simpl; [exact Hf|].
  rewrite <- !app_assoc. apply no_char_app. split; [exact Hd|].
  apply (no_char_app x [slash]). split; [|exact IH].
  apply no_char_in. intros c [<-|[]]. congruence.
Qed.

Lemma slash_not_colon : slash <> colon.
Proof. discriminate. Qed.

Lemma hash_not_colon : hash <> colon.
Proof. discriminate. Qed.

Lemma hash_not_slash : hash <> slash.
Proof. discriminate. Qed.

Lemma split_drive_sep (t y z : str) :
  t <> [] ->
  (forall a y', y = a :: y' -> a <> colon) ->
  (forall a z', z = a :: z' -> a <> colon) ->
  split_drive (t ++ z) = None -> split_drive (t ++ y) = None.
Proof.
  intros Ht Hy Hz H. destruct t as [|c [|b t]]; [congruence| |].
  2:{ simpl in H |- *. destruct (is_alpha c && Ascii.eqb b colon); [discriminate|reflexivity]. }
  simpl. destruct y as [|a y]; [reflexivity|].
  assert (Ascii.eqb a colon = false) as -> by
    (apply Ascii.eqb_neq; exact (Hy a y eq_refl)).
  now rewrite andb_false_r.
Qed.

(** The rendered directories and filename start with neither ['/'] nor a
    drive token when the parsed string did not. *)
Lemma render_head (toks : list str) (fname port : str) :
  Forall (fun d => d <> [] /\ no_char slash d) toks ->
  no_char slash fname ->
  starts_with_slash
    ((List.concat (map (fun d => d ++ [slash]) toks) ++ fname)
     ++ (if is_nil port then [] else hash :: port)) = false.
Proof.
  intros Hds Hf. destruct Hds as [|d ds [Hd Hds'] _].
  - simpl. destruct fname as [|a f].
    + destruct (is_nil port); reflexivity.
    + unfold no_char in Hf; simpl in Hf. apply andb_true_iff in Hf as [Ha _].
      simpl. now apply negb_true_iff in Ha.
  - destruct d as [|a d]; [congruence|].
    unfold no_char in Hds'; simpl in Hds'. apply andb_true_iff in Hds' as [Ha _].
    simpl. now apply negb_true_iff in Ha.
Qed.

Lemma portion_split_app (r body port : str) :
  portion_split r = (body, port) ->
  exists qo, r = body ++ qo /\ (forall a z, qo = a :: z -> a = hash).
Proof.
  unfold portion_split. destruct (split_last_hash r) as [[b p]|] eqn:Eh; intro H.
  - injection H as -> ->. destruct (split_last_hash_some _ _ _ Eh) as [-> _].
    exists (hash :: port). split; [reflexivity|]. intros a z E. now injection E.
  - injection H as <- <-. exists []. split; [now rewrite app_nil_r|discriminate].
Qed.

Lemma render_no_drive (r1 body port fname : str) (toks : list str) :
  split_drive r1 = None -> starts_with_slash r1 = false ->
  portion_split r1 = (body, port) -> split_filename body = (toks, fname) ->
  split_drive ((List.concat (map (fun d => d ++ [slash]) toks) ++ fname)
               ++ (if is_nil port then [] else hash :: port)) = None.
Proof.
  intros Hd Hr E3 E4.
  pose proof (split_filename_segments _ _ _ E4) as Hseg.
  destruct (portion_split_app _ _ _ E3) as [qo [Hr1 Hqo]].
  assert (HQ : forall a z, (if is_nil port then [] else hash :: port) = a :: z -> a <> colon).
  { intros a z E. destruct (is_nil port); [discriminate|].
    injection E as <- _. exact hash_not_colon. }
  destruct body as [|c body'].
  - change (segments []) with (@nil str) in Hseg.
    apply app_eq_nil in Hseg as [-> Hf].
    destruct fname; [|discriminate]. simpl.
    destruct (is_nil port); [reflexivity|].
    destruct port as [|a port]; reflexivity.
  - destruct (split_on_slash (c :: body')) as [|w ws] eqn:Es;
      [exfalso; exact (split_on_slash_nonnil _ Es)|].
    destruct (split_on_slash_head _ _ _ Es) as [rest [Hb Hrest]].
    assert (Hw : w <> []).
    { intros ->. simpl in Hb. subst rest. destruct Hrest as [|[r' Er]]; [discriminate|].
      injection Er as -> _. subst r1. simpl in Hr. discriminate. }
    assert (Hsg : segments (c :: body') = w :: filter (fun t => negb (is_nil t)) ws).
    { unfold segments. rewrite Es. simpl. destruct w; [congruence|reflexivity]. }
    rewrite Hsg in Hseg.
    assert (Hz : split_drive (w ++ (rest ++ qo)) = None).
    { rewrite app_assoc, <- Hb, <- Hr1. exact Hd. }
    assert (Hzh : forall a z, rest ++ qo = a :: z -> a <> colon).
    { intros a z E. destruct Hrest as [->|[r' ->]].
      - rewrite (Hqo a z E). exact hash_not_colon.
      - injection E as <- _. exact slash_not_colon. }
    destruct toks as [|d ds].
    + simpl in Hseg. destruct fname as [|f0 fname]; [discriminate|].
      simpl in Hseg. injection Hseg as Hf _. rewrite Hf. simpl.
      exact (split_drive_sep w _ (rest ++ qo) Hw HQ Hzh Hz).
    + injection Hseg as -> _. simpl. rewrite <- !app_assoc. simpl.
      apply (split_drive_sep w _ (rest ++ qo) Hw); [|exact Hzh|exact Hz].
      intros a z E. injection E as <- _. exact slash_not_colon.
Qed.

(** * Further properties of the [Path] operations *)

Lemma resolve_onto_Forall (P : str -> Prop) (acc ts : list str) :
  Forall P acc -> Forall P ts -> Forall P (resolve_onto acc ts).
Proof.
  revert acc; induction ts as [|t ts IH]; intros acc Ha Ht; simpl; [exact Ha|].
  inversion Ht; subst. destruct (is_dotdot t); apply IH; auto.
  - now apply Forall_removelast.
  - apply Forall_app; split; auto.
Qed.

Lemma parse_well_shaped (drives : bool) (s : str) : well_shaped (parse drives s).
Proof.
  destruct s as [|c s'].
  - split; [constructor|split; reflexivity].
  - destruct (protocol_split (c :: s')) as [proto r1] eqn:E1.
    destruct (drive_split drives r1) as [drv r2] eqn:E2.
    destruct (portion_split r2) as [body port] eqn:E3.
    destruct (split_filename body) as [toks fname] eqn:E4.
    rewrite (parse_stages drives (c :: s') proto r1 drv r2 body port fname toks
               ltac:(discriminate) E1 E2 E3 E4).
    pose proof (split_filename_segments _ _ _ E4) as Hseg.
    assert (Hin : forall t, In t (segments body) -> t <> [] /\ no_char slash t).
    { intros t Ht. split; [exact (segments_nonempty _ _ Ht)|].
      apply no_char_in. intros x Hx. exact (proj2 (segments_chars _ _ Ht x Hx)). }
    split; [|split]; simpl.
    + apply resolve_onto_Forall; [constructor|].
      apply Forall_forall. intros t Ht. apply Hin. rewrite <- Hseg.
      apply in_or_app. now left.
    + destruct fname as [|a f]; [reflexivity|].
      apply (Hin (a :: f)). rewrite <- Hseg. apply in_or_app. right. now left.
    + unfold portion_split in E3.
      destruct (split_last_hash r2) as [[b p]|] eqn:Eh.
      * injection E3 as -> ->. exact (proj2 (split_last_hash_some _ _ _ Eh)).
      * injection E3 as _ <-. reflexivity.
Qed.

Lemma div_well_shaped (a b : Path) :
  well_shaped a -> well_shaped b -> well_shaped (div a b).
Proof.
  intros [Ha1 [Ha2 _]] [Hb1 [Hb2 Hb3]]. split; [|split]; simpl; auto.
  apply resolve_onto_Forall; [|exact Hb1].
  apply Forall_app; split; [exact Ha1|].
  destruct (filename a) as [|x f] eqn:Ef; simpl; [constructor|].
  constructor; [split; [discriminate|exact Ha2]|constructor].
Qed.

(** Every [Path] built by construction from a string, [/] and [/=] has
    non-empty directory entries without ['/'], a filename without ['/'] and
    a portion without ['#']. *)
Theorem built_paths_well_shaped (drives : bool) (e : path_expr) (os : list assign_op) :
  well_shaped (eval drives e)
  /\ well_shaped (snd (exec_ops drives os (eval drives e))).
Proof.
  assert (He : forall e, well_shaped (eval drives e)).
  { induction e0; simpl; auto using parse_well_shaped, div_well_shaped.
    unfold div_str. auto using parse_well_shaped, div_well_shaped. }
  split; [apply He|].
  rewrite exec_ops_fold; simpl. generalize (He e). generalize (eval drives e).
  induction os as [|o os IH]; intros p Hp; simpl; [exact Hp|].
  apply IH. destruct o; simpl; apply div_well_shaped; auto using parse_well_shaped.
Qed.

(** Composition is associative on built paths: [(a / b) / c = a / (b / c)]. *)
Theorem div_assoc (drives : bool) (a : Path) (eb ec : path_expr) :
  div (div a (eval drives eb)) (eval drives ec)
  = div a (div (eval drives eb) (eval drives ec)).
Proof.
  destruct (eval_good drives eb) as [Hb1 [Hb2 _]].
  destruct (eval_good drives ec) as [Hc1 _].
  assert (Hbf : Forall nodd (if is_nil (filename (eval drives eb)) then []
                             else [filename (eval drives eb)])).
  { destruct (is_nil _); [constructor|]. constructor; [|constructor].
    now apply dot_token_dotdot. }
  unfold div; simpl. f_equal.
  rewrite (resolve_onto_plain _ (directories (eval drives eb)) Hb1).
  rewrite (resolve_onto_plain _ (directories (eval drives ec)) Hc1).
  rewrite (resolve_onto_plain _ (directories (eval drives ec)) Hc1).
  rewrite resolve_onto_plain
    by (repeat (apply Forall_app; split); auto).
  now rewrite <- !app_assoc.
Qed.

Lemma length_removelast {A} (l : list A) : List.length (removelast l) = List.length l - 1.
Proof.
  induction l as [|x l IH]; [reflexivity|].
  destruct l as [|y l]; [reflexivity|].
  change (removelast (x :: y :: l)) with (x :: removelast (y :: l)).
  cbn [List.length]. rewrite IH. cbn [List.length]. lia.
Qed.

Lemma getParent_keeps (p : Path) :
  protocol (getParent p) = protocol p /\ drive (getParent p) = drive p
  /\ absolute (getParent p) = absolute p.
Proof.
  unfold getParent. destruct (negb (is_nil (filename p))); [auto|].
  destruct (directories p) as [|d [|d' ds]]; auto.
Qed.

Lemma getParent_shrinks (p : Path) :
  filename (getParent p) = []
  /\ List.length (directories (getParent p))
     <= (if is_nil (filename p) then List.length (directories p) - 1
         else List.length (directories p)).
Proof.
  unfold getParent. destruct (filename p) as [|c f] eqn:Ef; simpl.
  - destruct (directories p) as [|d [|d' ds]] eqn:Ed;
      cbn [filename directories]; rewrite ?Ef, ?Ed; split; auto.
    pose proof (length_removelast (d :: d' :: ds)) as L. simpl in L |- *. lia.
  - simpl. split; [reflexivity|lia].
Qed.

Lemma iter_getParent_root (n : nat) (p : Path) :
  filename p = [] -> List.length (directories p) <= n ->
  directories (Nat.iter n getParent p) = [] /\ filename (Nat.iter n getParent p) = [].
Proof.
  revert p; induction n as [|n IH]; intros p Hf Hl.
  - simpl. split; [|exact Hf]. destruct (directories p); [reflexivity|simpl in Hl; lia].
  - rewrite Nat.iter_succ_r. destruct (getParent_shrinks p) as [Hf' Hl'].
    rewrite Hf in Hl'. apply IH; [exact Hf'|simpl in Hl'; lia].
Qed.

Lemma iter_getParent_keeps (n : nat) (p : Path) :
  protocol (Nat.iter n getParent p) = protocol p
  /\ drive (Nat.iter n getParent p) = drive p
  /\ absolute (Nat.iter n getParent p) = absolute p.
Proof.
  revert p; induction n as [|n IH]; intro p; [auto|].
  rewrite Nat.iter_succ_r. destruct (getParent_keeps p) as [H1 [H2 H3]].
  destruct (IH (getParent p)) as [K1 [K2 K3]]. rewrite K1, K2, K3. auto.
Qed.

(** Walking up: [getNbDirectories p + 1] calls of [getParent] reach a path
    with neither directories nor filename, with the protocol, drive and
    absolute flag of [p]; [getParent] leaves that path unchanged. *)
Theorem getParent_reaches_top (p : Path) :
  let r := Nat.iter (S (getNbDirectories p)) getParent p in
  directories r = [] /\ filename r = []
  /\ protocol r = protocol p /\ drive r = drive p /\ absolute r = absolute p
  /\ getParent r = r.
Proof.
  intro r. subst r. unfold getNbDirectories.
  destruct (iter_getParent_keeps (S (List.length (directories p))) p) as [K1 [K2 K3]].
  rewrite Nat.iter_succ_r in *.
  destruct (getParent_shrinks p) as [Hf Hl].
  assert (Hl' : List.length (directories (getParent p)) <= List.length (directories p))
    by (destruct (is_nil (filename p)); lia).
  destruct (iter_getParent_root _ _ Hf Hl') as [D F].
  repeat split; auto.
  remember (Nat.iter _ getParent (getParent p)) as q eqn:Eq; clear Eq.
  destruct q as [pr dr ds fn ex po ab]; simpl in D, F; subst.
  reflexivity.
Qed.

Lemma after_last_dot_none (f : str) : after_last_dot f = None -> no_char dot f.
Proof.
  induction f as [|c t IH]; intro H; [reflexivity|].
  simpl in H. destruct (after_last_dot t); [discriminate|].
  destruct (Ascii.eqb c dot) eqn:Ec; [discriminate|].
  unfold no_char; simpl. rewrite Ec. apply IH. reflexivity.
Qed.

Lemma after_last_dot_some (f e : str) :
  after_last_dot f = Some e -> exists pre, f = pre ++ dot :: e /\ no_char dot e.
Proof.
  revert e; induction f as [|c t IH]; intros e H; [discriminate|].
  simpl in H. destruct (after_last_dot t) as [e'|] eqn:Et.
  - injection H as <-. destruct (IH e' eq_refl) as [pre [-> Hn]].
    exists (c :: pre). split; [reflexivity|exact Hn].
  - destruct (Ascii.eqb c dot) eqn:Ec; [|discriminate].
    injection H as <-. apply Ascii.eqb_eq in Ec as ->.
    exists []. split; [reflexivity|]. now apply after_last_dot_none.
Qed.

(** Filename split: for a built path with an extension, the filename is
    [getFilenameOnly] followed by ['.'] and the extension, and the
    extension contains no ['.'] (it is the text after the last dot). *)
Theorem filename_only_extension_split (drives : bool) (e : path_expr)
  (Hext : hasExtension (eval drives e) = true) :
  getFilenameOnly (eval drives e) ++ dot :: extension (eval drives e)
    = filename (eval drives e)
  /\ no_char dot (extension (eval drives e)).
Proof.
  destruct (eval_good drives e) as [_ [_ Hx]].
  unfold hasExtension, getFilenameOnly in *.
  remember (eval drives e) as p eqn:Ep; clear Ep.
  rewrite Hx in *. unfold extension_of in *.
  destruct (after_last_dot (filename p)) as [x|] eqn:Ea; [|discriminate].
  destruct (after_last_dot_some _ _ Ea) as [pre [Hf Hn]].
  split; [|exact Hn].
  rewrite Hf at 3.
  replace (List.length (filename p) - List.length x - 1) with (List.length pre)
    by (rewrite Hf, length_app; cbn [List.length]; lia).
  rewrite Hf, firstn_app, firstn_all, Nat.sub_diag. simpl. now rewrite app_nil_r.
Qed.

Lemma filename_only_extension_split_witness :
  hasExtension (eval false (PNew (lit "media/level.old.nxs"%string))) = true
  /\ getFilenameOnly (eval false (PNew (lit "media/level.old.nxs"%string)))
       ++ dot :: extension (eval false (PNew (lit "media/level.old.nxs"%string)))
     = filename (eval false (PNew (lit "media/level.old.nxs"%string)))
  /\ no_char dot (extension (eval false (PNew (lit "media/level.old.nxs"%string)))).
Proof.
  split; [vm_compute; reflexivity|].
  apply filename_only_extension_split. vm_compute. reflexivity.
Defined.

(** File case of [getParent] undone by [/]: for a built path whose
    filename is a plain segment and which has no portion, appending the
    filename to its parent gives the path back. *)
Theorem getParent_div_filename (drives : bool) (e : path_expr)
  (Hf : plain_segment drives (filename (eval drives e)) = true)
  (Hp : portion (eval drives e) = []) :
  div_str drives (getParent (eval drives e)) (filename (eval drives e)) = eval drives e.
Proof.
  destruct (eval_good drives e) as [_ [_ Hx]].
  remember (eval drives e) as p eqn:Ep; clear Ep.
  destruct (parse_plain_segment drives _ Hf) as [D [F P]].
  pose proof (parse_extension drives (filename p)) as X. rewrite F in X.
  assert (Hne : is_nil (filename p) = false).
  { unfold plain_segment in Hf. destruct (is_nil (filename p)); [discriminate|reflexivity]. }
  unfold div_str, div, getParent. rewrite Hne. cbn -[parse].
  rewrite D, F, X, P, app_nil_r. rewrite <- Hx, <- Hp.
  destruct p; reflexivity.
Qed.

Lemma getParent_div_filename_witness :
  plain_segment true (filename (eval true (PNew (lit "c:/Games/level.nxs"%string)))) = true
  /\ portion (eval true (PNew (lit "c:/Games/level.nxs"%string))) = []
  /\ div_str true (getParent (eval true (PNew (lit "c:/Games/level.nxs"%string))))
       (filename (eval true (PNew (lit "c:/Games/level.nxs"%string))))
     = eval true (PNew (lit "c:/Games/level.nxs"%string)).
Proof.
  split; [vm_compute; reflexivity|]. split; [vm_compute; reflexivity|].
  apply getParent_div_filename; vm_compute; reflexivity.
Defined.

Lemma split_protocol_snoc_slash (x : str) :
  no_char slash x -> split_protocol (x ++ [slash]) = None.
Proof.
  induction x as [|c x IH]; intro H; [reflexivity|].
  unfold no_char in H; simpl in H. apply andb_true_iff in H as [Hc Hx].
  rewrite <- app_comm_cons. cbn [split_protocol].
  assert (starts_sep (c :: x ++ [slash]) = false) as ->.
  { destruct x as [|c1 [|c2 x]]; simpl; try reflexivity;
      simpl in Hx; apply andb_true_iff in Hx as [Hc1 _];
      apply negb_true_iff in Hc1; rewrite Hc1; now rewrite andb_false_r. }
  now rewrite IH.
Qed.

Lemma split_drive_snoc_slash (x : str) :
  split_drive x = None -> split_drive (x ++ [slash]) = None.
Proof.
  destruct x as [|c [|c1 x]]; intro H; [reflexivity| |simpl in H |- *; destruct (_ && _); [discriminate|reflexivity]].
  simpl. now destruct (is_alpha c).
Qed.

Lemma parse_plain_dir (drives : bool) (x : str) :
  plain_segment drives x = true ->
  directories (parse drives (x ++ [slash])) = [x]
  /\ filename (parse drives (x ++ [slash])) = []
  /\ extension (parse drives (x ++ [slash])) = []
  /\ portion (parse drives (x ++ [slash])) = [].
Proof.
  unfold plain_segment. intro H.
  apply andb_true_iff in H as [H Hd]. apply andb_true_iff in H as [H Hdot].
  apply andb_true_iff in H as [Hne Hc]. apply forallb_and in Hc as [Hs Hh].
  apply negb_true_iff in Hdot.
  assert (Hx : x ++ [slash] <> []) by (destruct x; discriminate).
  assert (E1 : protocol_split (x ++ [slash]) = (lit "file"%string, x ++ [slash])).
  { unfold protocol_split. now rewrite split_protocol_snoc_slash. }
  assert (E2 : drive_split drives (x ++ [slash]) = ([], x ++ [slash])).
  { unfold drive_split. destruct drives; [|reflexivity].
    destruct (split_drive x) eqn:Ed; [discriminate|].
    now rewrite split_drive_snoc_slash. }
  assert (E3 : portion_split (x ++ [slash]) = (x ++ [slash], [])).
  { unfold portion_split. rewrite no_hash_split_last_hash; [reflexivity|].
    rewrite forallb_app, Hh. reflexivity. }
  assert (E4 : split_filename (x ++ [slash]) = ([x], [])).
  { pose proof (split_filename_render [x] [] ltac:(constructor; [split; [destruct x; discriminate|exact Hs]|constructor]) eq_refl eq_refl) as R.
    simpl in R. now rewrite !app_nil_r in R. }
  rewrite (parse_stages drives _ _ _ _ _ _ _ _ _ Hx E1 E2 E3 E4). simpl.
  unfold resolve. rewrite resolve_onto_plain; [repeat split|].
  constructor; [now apply dot_token_dotdot|constructor].
Qed.

(** Directory case of [getParent] undone by [/]: for a built path with
    neither filename nor portion, [(p / "x/").getParent() == p] for a plain
    segment [x]. *)
Theorem getParent_div_directory (drives : bool) (e : path_expr) (x : str)
  (Hf : filename (eval drives e) = []) (Hp : portion (eval drives e) = [])
  (Hx : plain_segment drives x = true) :
  getParent (div_str drives (eval drives e) (x ++ [slash])) = eval drives e.
Proof.
  destruct (eval_good drives e) as [Hn [_ He]].
  destruct (parse_plain_dir drives x Hx) as [D [F [X P]]].
  assert (Hxn : nodd x).
  { unfold plain_segment in Hx. apply dot_token_dotdot.
    destruct (is_dot_token x); [|reflexivity].
    rewrite andb_false_r, andb_false_l in Hx. discriminate. }
  remember (eval drives e) as p eqn:Ep; clear Ep.
  destruct p as [pr dr ds fn ex po ab]; simpl in *; subst.
  unfold div_str, getParent, div. cbn -[parse resolve_onto removelast].
  rewrite D, F, X, P. cbn -[resolve_onto removelast].
  rewrite app_nil_r, (resolve_onto_plain ds [x]) by (constructor; auto).
  destruct ds as [|d ds]; [reflexivity|].
  assert (exists y ys, ds ++ [x] = y :: ys) as [y [ys Ey]]
    by (destruct ds; eexists _, _; reflexivity).
  rewrite <- app_comm_cons, Ey. cbn -[removelast].
  rewrite <- Ey, app_comm_cons, removelast_last. reflexivity.
Qed.

Lemma getParent_div_directory_witness :
  filename (eval true (PNew (lit "c:/Games/"%string))) = []
  /\ portion (eval true (PNew (lit "c:/Games/"%string))) = []
  /\ plain_segment true (lit "media"%string) = true
  /\ getParent (div_str true (eval true (PNew (lit "c:/Games/"%string)))
                  (lit "media"%string ++ [slash]))
     = eval true (PNew (lit "c:/Games/"%string)).
Proof.
  split; [vm_compute; reflexivity|]. split; [vm_compute; reflexivity|].
  split; [vm_compute; reflexivity|].
  apply getParent_div_directory; vm_compute; reflexivity.
Defined.

Lemma div_directories_built (a : Path) (drives : bool) (e : path_expr) :
  directories (div a (eval drives e))
  = (directories a ++ (if is_nil (filename a) then [] else [filename a]))
    ++ directories (eval drives e).
Proof.
  destruct (eval_good drives e) as [Hn _].
  unfold div; simpl. now apply resolve_onto_plain.
Qed.

(** Counting through [/]: [a / b] has the directories of [a], one more if
    [a] had a filename, and those of [b]. *)
Theorem getNbDirectories_div (a : Path) (drives : bool) (e : path_expr) :
  getNbDirectories (div a (eval drives e))
  = getNbDirectories a + (if hasFilename a then 1 else 0)
    + getNbDirectories (eval drives e).
Proof.
  unfold getNbDirectories, hasFilename. rewrite div_directories_built.
  rewrite !length_app. destruct (is_nil (filename a)); simpl; lia.
Qed.

(** Indexing through [/]: the innermost levels of [a / b] are those of
    [b]; the next one is the demoted filename of [a] if it had one; the
    outer levels are those of [a]. *)
Theorem getDirectory_div (a : Path) (drives : bool) (e : path_expr) (n : nat) :
  getDirectory (div a (eval drives e)) n
  = if n <? getNbDirectories (eval drives e) then getDirectory (eval drives e) n
    else if hasFilename a then
      (if n =? getNbDirectories (eval drives e) then Some (filename a)
       else getDirectory a (n - getNbDirectories (eval drives e) - 1))
    else getDirectory a (n - getNbDirectories (eval drives e)).
Proof.
  unfold getDirectory, getNbDirectories, hasFilename.
  rewrite div_directories_built, rev_app_distr.
  set (B := directories (eval drives e)).
  destruct (Nat.ltb_spec n (List.length B)) as [Hl|Hl].
  - rewrite nth_error_app1 by (rewrite length_rev; exact Hl). reflexivity.
  - rewrite nth_error_app2 by (rewrite length_rev; exact Hl). rewrite length_rev.
    destruct (is_nil (filename a)); simpl.
    + now rewrite app_nil_r.
    + rewrite rev_unit. destruct (Nat.eqb_spec n (List.length B)) as [He|He].
      * subst n. now rewrite Nat.sub_diag.
      * destruct (n - List.length B) as [|k] eqn:Ek; [lia|].
        simpl. now rewrite Nat.sub_0_r.
Qed.

(** A sequence of [/=] never changes the receiver's protocol, drive or
    absolute flag. *)
Theorem exec_ops_keeps_root (drives : bool) (os : list assign_op) (p : Path) :
  protocol (snd (exec_ops drives os p)) = protocol p
  /\ drive (snd (exec_ops drives os p)) = drive p
  /\ absolute (snd (exec_ops drives os p)) = absolute p.
Proof.
  rewrite exec_ops_fold; simpl. revert p.
  induction os as [|o os IH]; intro p; simpl; [auto|].
  destruct (IH (snd (exec_op drives o p))) as [H1 [H2 H3]].
  rewrite H1, H2, H3. destruct o; simpl; auto.
Qed.

Lemma ends_with_slash_app (a b : str) :
  b <> [] -> ends_with_slash (a ++ b) = ends_with_slash b.
Proof.
  intro Hb. unfold ends_with_slash. rewrite rev_app_distr.
  destruct (rev b) as [|c r] eqn:E; [|reflexivity].
  apply (f_equal (@rev ascii)) in E. rewrite rev_involutive in E. contradiction.
Qed.

Lemma ends_with_slash_snoc (s : str) :
  ends_with_slash s = true -> exists u, s = u ++ [slash].
Proof.
  unfold ends_with_slash. destruct (rev s) as [|c r] eqn:E; [discriminate|].
  intro Hc. apply Ascii.eqb_eq in Hc. subst c. exists (rev r).
  rewrite <- (rev_involutive s), E. reflexivity.
Qed.

Lemma split_protocol_concat_none (s t : str) :
  (s = [] \/ ends_with_slash s = true) ->
  split_protocol s = None -> split_protocol t = None ->
  starts_with_slash t = false ->
  split_protocol (s ++ t) = None.
Proof.
  intros Hs Hn Ht Hst. induction s as [|c s' IH]; [exact Ht|].
  destruct Hs as [Hs|Hs]; [discriminate|].
  cbn [split_protocol] in Hn. rewrite <- app_comm_cons. cbn [split_protocol].
  destruct (starts_sep (c :: s')) eqn:Es; [discriminate|].
  destruct (split_protocol s') as [[? ?]|] eqn:Es'; [discriminate|].
  assert (Hs' : s' = [] \/ ends_with_slash s' = true).
  { destruct s' as [|d s'']; [now left|right].
    rewrite <- (ends_with_slash_app [c] (d :: s'')) by discriminate. exact Hs. }
  assert (starts_sep (c :: s' ++ t) = false) as ->.
  { destruct s' as [|d [|e s'']].
    - unfold ends_with_slash in Hs. simpl in Hs. apply Ascii.eqb_eq in Hs. subst c.
      destruct t as [|a [|b t]]; reflexivity.
    - destruct Hs' as [Hs'|Hs']; [discriminate|].
      unfold ends_with_slash in Hs'. simpl in Hs'. apply Ascii.eqb_eq in Hs'. subst d.
      destruct t as [|a t]; [reflexivity|]. simpl in Hst |- *.
      rewrite Hst. now rewrite andb_false_r.
    - exact Es. }
  rewrite IH; auto.
Qed.

Lemma protocol_split_concat (s t proto r1 : str) :
  ends_with_slash s = true ->
  split_protocol t = None -> starts_with_slash t = false ->
  protocol_split s = (proto, r1) ->
  protocol_split (s ++ t) = (proto, r1 ++ t).
Proof.
  intros Hs Ht Hst. unfold protocol_split.
  destruct (split_protocol s) as [[x y]|] eqn:E; intro H.
  - injection H as -> ->. apply split_protocol_some in E as E'. subst s.
    rewrite <- !app_assoc. erewrite split_protocol_app; [reflexivity|].
    rewrite !app_assoc in E. rewrite <- !app_assoc in E. exact E.
  - injection H as <- <-. rewrite split_protocol_concat_none; auto.
Qed.

Lemma drive_split_concat (drives : bool) (r1 t drv r2 : str) :
  (r1 = [] \/ ends_with_slash r1 = true) ->
  (drives = true -> split_drive t = None) ->
  drive_split drives r1 = (drv, r2) ->
  drive_split drives (r1 ++ t) = (drv, r2 ++ t).
Proof.
  intros Hr Ht. unfold drive_split.
  destruct drives; [|intro H; injection H as <- <-; reflexivity].
  destruct r1 as [|a [|b r]].
  - simpl. rewrite Ht by reflexivity. intro H; injection H as <- <-. reflexivity.
  - destruct Hr as [Hr|Hr]; [discriminate|].
    unfold ends_with_slash in Hr. simpl in Hr. apply Ascii.eqb_eq in Hr. subst a.
    simpl. intro H; injection H as <- <-. destruct t; reflexivity.
  - simpl. destruct (is_alpha a && Ascii.eqb b colon);
      intro H; injection H as <- <-; reflexivity.
Qed.

Lemma split_last_hash_concat (a t : str) :
  no_char hash a ->
  split_last_hash (a ++ t)
  = match split_last_hash t with Some (b, p) => Some (a ++ b, p) | None => None end.
Proof.
  induction a as [|c a IH]; intro Ha.
  - simpl. destruct (split_last_hash t) as [[b p]|]; reflexivity.
  - unfold no_char in Ha; simpl in Ha. apply andb_true_iff in Ha as [Hc Ha].
    apply negb_true_iff in Hc. simpl. rewrite IH by exact Ha.
    destruct (split_last_hash t) as [[b p]|]; [reflexivity|]. now rewrite Hc.
Qed.

Lemma portion_split_concat (a t : str) :
  no_char hash a ->
  portion_split (a ++ t) = (a ++ fst (portion_split t), snd (portion_split t)).
Proof.
  intro Ha. unfold portion_split. rewrite split_last_hash_concat by exact Ha.
  destruct (split_last_hash t) as [[b p]|]; reflexivity.
Qed.

Lemma split_on_slash_concat (u v : str) :
  split_on_slash (u ++ slash :: v) = split_on_slash u ++ split_on_slash v.
Proof.
  induction u as [|c u IH]; [reflexivity|].
  rewrite <- app_comm_cons. cbn [split_on_slash].
  destruct (Ascii.eqb c slash); [now rewrite IH|].
  rewrite IH. destruct (split_on_slash u) as [|w ws] eqn:E.
  - exfalso. exact (split_on_slash_nonnil u E).
  - reflexivity.
Qed.

Lemma segments_concat (u v : str) :
  segments (u ++ slash :: v) = segments u ++ segments v.
Proof. unfold segments. now rewrite split_on_slash_concat, filter_app. Qed.

Lemma segments_nonnil (s : str) (c : ascii) :
  In c s -> c <> slash -> segments s <> [].
Proof.
  induction s as [|d s IH]; intros Hin Hc; [destruct Hin|].
  unfold segments in *. cbn [split_on_slash].
  destruct (Ascii.eqb d slash) eqn:Ed.
  - apply Ascii.eqb_eq in Ed. subst d. destruct Hin as [Hin|Hin]; [congruence|].
    simpl. exact (IH Hin Hc).
  - destruct (split_on_slash s); discriminate.
Qed.

Lemma segments_last_nonnil (b : str) :
  b <> [] -> ends_with_slash b = false -> segments b <> [].
Proof.
  intros Hb He. unfold ends_with_slash in He.
  destruct (rev b) as [|c r] eqn:E.
  - apply (f_equal (@rev ascii)) in E. rewrite rev_involutive in E. contradiction.
  - apply (segments_nonnil b c).
    + apply in_rev. rewrite E. now left.
    + intro Hc. subst c. rewrite Ascii.eqb_refl in He. discriminate.
Qed.

Lemma split_filename_dir (r : str) :
  (r = [] \/ ends_with_slash r = true) -> split_filename r = (segments r, []).
Proof.
  unfold split_filename. intros [->|H]; [reflexivity|]. now rewrite H.
Qed.

Lemma split_filename_concat (r b : str) :
  (r = [] \/ ends_with_slash r = true) ->
  split_filename (r ++ b)
  = (segments r ++ fst (split_filename b), snd (split_filename b)).
Proof.
  intros [->|Hr]; [simpl; destruct (split_filename b); reflexivity|].
  destruct b as [|x b'].
  - rewrite app_nil_r, split_filename_dir by now right. simpl. now rewrite app_nil_r.
  - set (b := x :: b').
    destruct (ends_with_slash_snoc r Hr) as [u ->].
    replace ((u ++ [slash]) ++ b) with (u ++ slash :: b) by now rewrite <- app_assoc.
    assert (Hu : segments (u ++ [slash]) = segments u)
      by (rewrite segments_concat; apply app_nil_r).
    rewrite Hu. unfold split_filename at 1.
    rewrite segments_concat.
    rewrite (ends_with_slash_app u (slash :: b)) by discriminate.
    change (ends_with_slash (slash :: b)) with (ends_with_slash ([slash] ++ b)).
    rewrite ends_with_slash_app by discriminate.
    unfold split_filename. destruct (ends_with_slash b) eqn:Eb; [reflexivity|].
    pose proof (segments_last_nonnil b ltac:(discriminate) Eb) as Hn.
    rewrite rev_app_distr.
    destruct (rev (segments b)) as [|f rd] eqn:Er.
    + apply (f_equal (@rev str)) in Er. rewrite rev_involutive in Er. contradiction.
    + simpl. destruct (is_dot_token f); [reflexivity|].
      now rewrite rev_app_distr, rev_involutive.
Qed.

Lemma protocol_split_suffix (s proto r1 : str) :
  protocol_split s = (proto, r1) -> exists a, s = a ++ r1.
Proof.
  unfold protocol_split. destruct (split_protocol s) as [[x y]|] eqn:E; intro H.
  - injection H as <- <-. apply split_protocol_some in E.
    exists (x ++ lit "://"%string). now rewrite <- app_assoc.
  - injection H as _ <-. now exists [].
Qed.

Lemma drive_split_suffix (drives : bool) (r1 drv r2 : str) :
  drive_split drives r1 = (drv, r2) -> exists a, r1 = a ++ r2.
Proof.
  unfold drive_split. destruct drives; [|intro H; injection H as _ <-; now exists []].
  destruct (split_drive r1) as [[c r]|] eqn:E; intro H.
  - injection H as _ <-. apply split_drive_some in E as [-> _].
    now exists [c; colon].
  - injection H as _ <-. now exists [].
Qed.

Lemma suffix_dir (a b : str) :
  (a ++ b = [] \/ ends_with_slash (a ++ b) = true) ->
  b = [] \/ ends_with_slash b = true.
Proof.
  destruct b as [|c b]; [now left|right].
  rewrite <- (ends_with_slash_app a) by discriminate.
  destruct H as [H|H]; [destruct a; discriminate|exact H].
Qed.

(** Appending a string to a directory path (header, usage 5:
    [path /= "My Game/"; path /= "Game.exe"]): for [s] ending in ['/']
    without ['#'], and [t] with no protocol, no leading ['/'], no drive
    token and no [".."] segment, [Path(s) / t] is the path of the joined
    string [s + t]. *)
Theorem div_str_parse_concat (drives : bool) (s t : str)
  (Hs : ends_with_slash s = true) (Hsh : no_char hash s)
  (Ht1 : split_protocol t = None) (Ht2 : starts_with_slash t = false)
  (Ht3 : drives = true -> split_drive t = None)
  (Ht4 : forallb (fun w => negb (is_dotdot w)) (segments (path_body drives t)) = true) :
  div_str drives (parse drives s) t = parse drives (s ++ t).
Proof.
  assert (Hsne : s <> []) by (intros ->; discriminate).
  destruct (protocol_split s) as [proto r1] eqn:E1.
  destruct (drive_split drives r1) as [drv r2] eqn:E2.
  destruct (protocol_split_suffix _ _ _ E1) as [a1 Ea1].
  destruct (drive_split_suffix _ _ _ _ E2) as [a2 Ea2].
  assert (Hr1 : r1 = [] \/ ends_with_slash r1 = true)
    by (apply (suffix_dir a1); rewrite <- Ea1; now right).
  assert (Hr2 : r2 = [] \/ ends_with_slash r2 = true)
    by (apply (suffix_dir a2); rewrite <- Ea2; destruct Hr1; auto).
  assert (Hr2h : no_char hash r2).
  { rewrite Ea1, Ea2 in Hsh. now apply no_char_app in Hsh as [_ Hsh];
      apply no_char_app in Hsh as [_ Hsh]. }
  assert (E3 : portion_split r2 = (r2, [])).
  { unfold portion_split. now rewrite no_hash_split_last_hash. }
  pose proof (split_filename_dir r2 Hr2) as E4.
  rewrite (parse_stages drives s _ _ _ _ _ _ _ _ Hsne E1 E2 E3 E4).
  assert (Et1 : protocol_split t = (lit "file"%string, t))
    by (unfold protocol_split; now rewrite Ht1).
  assert (Et2 : drive_split drives t = ([], t)).
  { unfold drive_split. destruct drives; [now rewrite Ht3|reflexivity]. }
  destruct (portion_split t) as [bt pt] eqn:Et3.
  destruct (split_filename bt) as [tt ft] eqn:Et4.
  assert (Hnd : Forall nodd tt).
  { unfold path_body, after_protocol in Ht4. rewrite Et1 in Ht4. simpl in Ht4.
    rewrite Et2 in Ht4. simpl in Ht4. rewrite Et3 in Ht4. simpl in Ht4.
    apply Forall_forall. intros w Hw. unfold nodd.
    rewrite forallb_forall in Ht4.
    assert (Hw' : In w (segments bt))
      by (rewrite <- (split_filename_segments _ _ _ Et4); apply in_or_app; now left).
    specialize (Ht4 w Hw'). now apply negb_true_iff in Ht4. }
  destruct t as [|c t'].
  - unfold div_str. rewrite app_nil_r, (parse_stages drives s _ _ _ _ _ _ _ _ Hsne E1 E2 E3 E4). simpl.
    unfold div; simpl. now rewrite !app_nil_r.
  - set (t := c :: t') in *.
    assert (Htne : t <> []) by discriminate.
    assert (Hstne : s ++ t <> []) by (destruct s; [contradiction|discriminate]).
    pose proof (protocol_split_concat s t proto r1 Hs Ht1 Ht2 E1) as F1.
    pose proof (drive_split_concat drives r1 t drv r2 Hr1 Ht3 E2) as F2.
    assert (F3 : portion_split (r2 ++ t) = (r2 ++ bt, pt))
      by (rewrite portion_split_concat, Et3 by exact Hr2h; reflexivity).
    assert (F4 : split_filename (r2 ++ bt) = (segments r2 ++ tt, ft))
      by (rewrite split_filename_concat, Et4 by exact Hr2; reflexivity).
    rewrite (parse_stages drives (s ++ t) _ _ _ _ _ _ _ _ Hstne F1 F2 F3 F4).
    unfold div_str.
    rewrite (parse_stages drives t _ _ _ _ _ _ _ _ Htne Et1 Et2 Et3 Et4).
    unfold div. cbn [protocol drive directories filename extension portion absolute].
    f_equal.
    + unfold resolve. rewrite app_nil_r, resolve_onto_app.
      rewrite !(resolve_onto_plain _ tt Hnd). reflexivity.
    + destruct r1 as [|x r1']; [|reflexivity].
      assert (drv = []) as ->.
      { unfold drive_split in E2. destruct drives; injection E2 as <- _; reflexivity. }
      simpl in Ht2 |- *. now rewrite Ht2.
Qed.

Lemma div_str_parse_concat_witness :
  ends_with_slash (lit "c:/Program Files/My Game/"%string) = true
  /\ no_char hash (lit "c:/Program Files/My Game/"%string)
  /\ split_protocol (lit "Game.exe"%string) = None
  /\ starts_with_slash (lit "Game.exe"%string) = false
  /\ (true = true -> split_drive (lit "Game.exe"%string) = None)
  /\ forallb (fun w => negb (is_dotdot w))
       (segments (path_body true (lit "Game.exe"%string))) = true
  /\ div_str true (parse true (lit "c:/Program Files/My Game/"%string))
       (lit "Game.exe"%string)
     = parse true (lit "c:/Program Files/My Game/"%string ++ lit "Game.exe"%string).
Proof.
  split; [vm_compute; reflexivity|]. split; [vm_compute; reflexivity|].
  split; [vm_compute; reflexivity|]. split; [vm_compute; reflexivity|].
  split; [intros _; vm_compute; reflexivity|].
  split; [vm_compute; reflexivity|].
  apply div_str_parse_concat; try (vm_compute; reflexivity).
Defined.

(** Rendering through [/]: for a directory path [a] (no filename, no
    portion) and a built [b], the string of [a / b] is that of [a]
    followed by the directories, filename and portion of [b]. *)
Theorem getString_div (drives : bool) (a : Path) (e : path_expr)
  (Hf : filename a = []) (Hp : portion a = []) :
  getString (div a (eval drives e))
  = getString a
    ++ List.concat (map (fun d => d ++ [slash]) (directories (eval drives e)))
    ++ filename (eval drives e)
    ++ (if is_nil (portion (eval drives e)) then [] else hash :: portion (eval drives e)).
Proof.
  pose proof (div_directories_built a drives e) as D.
  rewrite Hf, app_nil_r in D.
  unfold getString. rewrite D, Hf, Hp, map_app, concat_app.
  unfold div; cbn [protocol drive filename portion is_nil app].
  now rewrite !app_nil_r, <- !app_assoc.
Qed.

Lemma getString_div_witness :
  filename (parse true (lit "c:/Program Files/"%string)) = []
  /\ portion (parse true (lit "c:/Program Files/"%string)) = []
  /\ getString (div (parse true (lit "c:/Program Files/"%string))
                    (eval true (PNew (lit "My Game/Game.exe"%string))))
     = getString (parse true (lit "c:/Program Files/"%string))
       ++ List.concat (map (fun d => d ++ [slash])
            (directories (eval true (PNew (lit "My Game/Game.exe"%string)))))
       ++ filename (eval true (PNew (lit "My Game/Game.exe"%string)))
       ++ (if is_nil (portion (eval true (PNew (lit "My Game/Game.exe"%string)))) then []
           else hash :: portion (eval true (PNew (lit "My Game/Game.exe"%string)))).
Proof.
  split; [vm_compute; reflexivity|]. split; [vm_compute; reflexivity|].
  apply getString_div; vm_compute; reflexivity.
Defined.

(** The parent's string is a prefix: when [p] has a filename or no
    portion, [getString (getParent p)] is a prefix of [getString p]. *)
Theorem getString_getParent_prefix (p : Path)
  (H : hasFilename p = true \/ portion p = []) :
  exists rest, getString p = getString (getParent p) ++ rest.
Proof.
  destruct p as [pr dr ds fn ex po ab].
  unfold getString, getParent, hasFilename in *; cbn [filename portion directories] in *.
  destruct fn as [|c fn]; cbn [is_nil negb].
  - destruct H as [H|Hp]; [discriminate|]. subst po.
    destruct ds as [|d [|d' ds]]; cbn [protocol drive directories filename portion].
    + exists []. symmetry. apply app_nil_r.
    + exists (d ++ [slash]). cbn [map List.concat app is_nil]. now rewrite !app_nil_r, <- !app_assoc.
    + destruct (exists_last (l := d' :: ds) ltac:(discriminate)) as [l [y Ey]].
      rewrite Ey, app_comm_cons, removelast_last.
      exists (y ++ [slash]).
      rewrite map_app, concat_app. cbn [map List.concat app is_nil].
      now rewrite !app_nil_r, <- !app_assoc.
  - exists ((c :: fn) ++ (if is_nil po then [] else hash :: po)).
    cbn [protocol drive directories filename portion is_nil app].
    now rewrite <- !app_assoc.
Qed.

Lemma getString_getParent_prefix_witness :
  (hasFilename (parse true (lit "zip://c:/media.zip#level.nxs"%string)) = true
   \/ portion (parse true (lit "zip://c:/media.zip#level.nxs"%string)) = [])
  /\ exists rest, getString (parse true (lit "zip://c:/media.zip#level.nxs"%string))
       = getString (getParent (parse true (lit "zip://c:/media.zip#level.nxs"%string))) ++ rest.
Proof.
  split; [left; vm_compute; reflexivity|].
  apply getString_getParent_prefix. left. vm_compute. reflexivity.
Defined.

(** ** C1: the round trip [parse (getString p) = p] *)

(** C1: for every well-formed string [s] (non-empty, at most one ['#']
    after the protocol, no [".."] segment), re-parsing the canonical
    string of [parse s] gives [parse s] back. *)
Theorem parse_getString_roundtrip (drives : bool) (s : str)
  (Hwf : wf_path_string drives s = true) :
  parse drives (getString (parse drives s)) = parse drives s.
Proof.
  unfold wf_path_string, path_body, after_protocol in *.
  apply andb_true_iff in Hwf as [Hwf Hdd]. apply andb_true_iff in Hwf as [Hne Hcnt].
  assert (Hs : s <> []) by (destruct s; discriminate).
  destruct (protocol_split s) as [proto r1] eqn:E1.
  destruct (drive_split drives r1) as [drv r2] eqn:E2.
  destruct (portion_split r2) as [body port] eqn:E3.
  destruct (split_filename body) as [toks fname] eqn:E4.
  simpl in Hcnt, Hdd. apply Nat.leb_le in Hcnt.
  rewrite (parse_stages drives s proto r1 drv r2 body port fname toks Hs E1 E2 E3 E4).
  pose proof (split_filename_segments _ _ _ E4) as Hseg.
  assert (Htoks : forall t, In t toks -> In t (segments body)).
  { intros t Ht. rewrite <- Hseg. apply in_or_app. now left. }
  assert (Hfn : fname = [] \/ In fname (segments body)).
  { destruct fname as [|a f]; [now left|right].
    rewrite <- Hseg. apply in_or_app. right. now left. }
  (* the text before the portion has no '#', nor has the portion *)
  assert (Hr2 : count_hash r2 <= 1).
  { unfold drive_split in E2. destruct drives.
    - destruct (split_drive r1) as [[c r]|] eqn:Ed;
        [injection E2 as _ ->|injection E2 as _ <-; lia].
      destruct (split_drive_some _ _ _ Ed) as [-> _].
      pose proof (count_hash_cons c (colon :: r2)).
      pose proof (count_hash_cons colon r2). lia.
    - injection E2 as _ <-. exact Hcnt. }
  assert (Hhash : no_char hash body /\ no_char hash port).
  { unfold portion_split in E3.
    destruct (split_last_hash r2) as [[b p]|] eqn:Eh.
    - injection E3 as -> ->. destruct (split_last_hash_some _ _ _ Eh) as [Hr Hp].
      subst r2. rewrite count_hash_app in Hr2.
      split; [|exact Hp]. apply count_hash_zero.
      unfold count_hash in Hr2 |- *. simpl in Hr2. lia.
    - injection E3 as -> <-. split; [now apply split_last_hash_none|reflexivity]. }
  destruct Hhash as [Hbh Hph].
  (* the tokens *)
  assert (Hts : Forall (fun d => d <> [] /\ no_char slash d) toks).
  { apply Forall_forall. intros t Ht. split.
    - exact (segments_nonempty _ _ (Htoks t Ht)).
    - apply no_char_in. intros c Hc. exact (proj2 (segments_chars _ _ (Htoks t Ht) c Hc)). }
  assert (Hth : Forall (no_char hash) toks).
  { apply Forall_forall. intros t Ht. apply no_char_in. intros c Hc.
    exact (proj1 (no_char_in hash body) Hbh c
                 (proj1 (segments_chars _ _ (Htoks t Ht) c Hc))). }
  assert (Hfs : no_char slash fname /\ no_char hash fname).
  { destruct Hfn as [->|Hf]; [split; reflexivity|].
    split; apply no_char_in; intros c Hc.
    - exact (proj2 (segments_chars _ _ Hf c Hc)).
    - exact (proj1 (no_char_in hash body) Hbh c (proj1 (segments_chars _ _ Hf c Hc))). }
  destruct Hfs as [Hfs Hfh].
  rewrite E2 in Hdd; simpl in Hdd; rewrite E3 in Hdd; simpl in Hdd.
  assert (Hnd : Forall nodd toks).
  { apply Forall_forall. intros t Ht.
    rewrite forallb_forall in Hdd. specialize (Hdd t (Htoks t Ht)).
    unfold nodd. now apply negb_true_iff. }
  pose proof (split_filename_name_not_dot body) as Hdot. rewrite E4 in Hdot; simpl in Hdot.
  unfold resolve. rewrite (resolve_onto_plain [] toks Hnd). simpl.
  (* the rendered string, stage by stage *)
  set (B := List.concat (map (fun d => d ++ [slash]) toks) ++ fname).
  set (Q := if is_nil port then [] else hash :: port).
  set (D := if is_nil drv then [] else drv ++ [colon]).
  set (ab := negb (is_nil drv) || starts_with_slash r1).
  set (A := if ab then [slash] else []).
  assert (Hg : getString {| protocol := proto; drive := drv; directories := toks;
                            filename := fname; extension := extension_of fname;
                            portion := port; absolute := ab |}
               = proto ++ lit "://"%string ++ D ++ A ++ B ++ Q).
  { unfold getString, B, Q, D, A; simpl. now rewrite <- !app_assoc. }
  rewrite Hg.
  assert (E1' : protocol_split (proto ++ lit "://"%string ++ D ++ A ++ B ++ Q)
                = (proto, D ++ A ++ B ++ Q)).
  { unfold protocol_split in E1 |- *.
    destruct (split_protocol s) as [[x y]|] eqn:Ep.
    - injection E1 as -> _. now rewrite (split_protocol_app _ _ _ _ Ep).
    - injection E1 as <- _.
      assert (Ef : split_protocol (lit "file://"%string) = Some (lit "file"%string, []))
        by reflexivity.
      now rewrite (split_protocol_app _ _ _ _ Ef). }
  assert (E3' : portion_split (B ++ Q) = (B, port)).
  { unfold portion_split, Q.
    assert (HB : no_char hash B) by (apply no_char_render; auto using hash_not_slash).
    destruct port as [|a p]; simpl.
    - rewrite app_nil_r, no_hash_split_last_hash by exact HB. reflexivity.
    - rewrite split_last_hash_app by exact Hph. reflexivity. }
  assert (E4' : split_filename B = (toks, fname)) by (apply split_filename_render; auto).
  (* behind a root '/' *)
  assert (E3s : portion_split ([slash] ++ B ++ Q) = ([slash] ++ B, port)).
  { rewrite portion_split_concat by reflexivity. now rewrite E3'. }
  assert (E4s : split_filename ([slash] ++ B) = (toks, fname)).
  { rewrite split_filename_concat by (right; reflexivity). now rewrite E4'. }
  assert (Hsl : starts_with_slash (B ++ Q) = false) by (apply render_head; auto).
  assert (Hne' : proto ++ lit "://"%string ++ D ++ A ++ B ++ Q <> []).
  { intro H. apply app_eq_nil in H as [_ H]. discriminate. }
  assert (Hsd : forall y, split_drive ([slash] ++ y) = None)
    by (intros [|c y]; reflexivity).
  destruct ab eqn:Eab; unfold ab in Eab.
  - (* absolute: a root '/' follows the drive, if any *)
    assert (E2' : drive_split drives (D ++ A ++ B ++ Q) = (drv, [slash] ++ B ++ Q)).
    { unfold drive_split in E2 |- *. unfold D, A. destruct drives.
      - destruct (split_drive r1) as [[c r]|] eqn:Ed.
        + injection E2 as <- <-. destruct (split_drive_some _ _ _ Ed) as [_ Ha].
          simpl. rewrite Ha. reflexivity.
        + injection E2 as <- <-. simpl. destruct (B ++ Q); reflexivity.
      - injection E2 as <- <-. reflexivity. }
    rewrite (parse_stages drives _ _ _ _ _ _ _ _ _ Hne' E1' E2' E3s E4s).
    unfold resolve. rewrite (resolve_onto_plain [] toks Hnd). simpl.
    destruct (is_nil drv); reflexivity.
  - (* relative: no drive, no leading '/' *)
    apply orb_false_iff in Eab as [Hdrv Hroot].
    assert (drv = []) as ->
      by (destruct drv; [reflexivity|discriminate]).
    assert (E2' : drive_split drives (D ++ A ++ B ++ Q) = ([], B ++ Q)).
    { unfold drive_split in E2 |- *. unfold D, A. simpl. destruct drives; [|reflexivity].
      destruct (split_drive r1) as [[c r]|] eqn:Ed; [injection E2 as E _; discriminate|].
      injection E2 as <-.
      pose proof (render_no_drive r1 body port fname toks Ed Hroot E3 E4) as Hx.
      change (split_drive (B ++ Q) = None) in Hx. rewrite Hx. reflexivity. }
    rewrite (parse_stages drives _ _ _ _ _ _ _ _ _ Hne' E1' E2' E3' E4').
    unfold resolve. rewrite (resolve_onto_plain [] toks Hnd). simpl.
    now rewrite Hsl.
Qed.

(** Witness: ["zip://C:/Games/media.zip#file.nxs"] on a build with drives. *)
Lemma parse_getString_roundtrip_witness :
  wf_path_string true (lit "zip://C:/Games/media.zip#file.nxs"%string) = true
  /\ parse true (getString (parse true (lit "zip://C:/Games/media.zip#file.nxs"%string)))
     = parse true (lit "zip://C:/Games/media.zip#file.nxs"%string).
Proof.
  split; [vm_compute; reflexivity|].
  apply parse_getString_roundtrip; vm_compute; reflexivity.
Defined.

(** ** C2: [".."] resolution in [parse] *)

Lemma parse_split_filename (drives : bool) (s : str) :
  directories (parse drives s) = resolve (fst (split_filename (path_body drives s)))
  /\ filename (parse drives s) = snd (split_filename (path_body drives s)).
Proof.
  destruct s as [|c s']; [destruct drives; split; reflexivity|].
  unfold path_body, after_protocol.
  destruct (protocol_split (c :: s')) as [proto r1] eqn:E1.
  destruct (drive_split drives r1) as [drv r2] eqn:E2.
  destruct (portion_split r2) as [body port] eqn:E3.
  destruct (split_filename body) as [toks fname] eqn:E4.
  rewrite (parse_stages drives (c :: s') proto r1 drv r2 body port fname toks
             ltac:(discriminate) E1 E2 E3 E4).
  simpl. rewrite E2. simpl. rewrite E3. simpl. rewrite E4. split; reflexivity.
Qed.

(** C2 (amended): parsing resolves [".."] directory tokens left to right,
    each one popping the last accepted directory, or dropped when there is
    none; of the segments of the path text, all are directory tokens when
    the text ends in ['/'] or its last segment is ["."] or [".."];
    otherwise the last segment is the filename.  So [parse "a/b/../c"] has
    directories [["a"]] and filename ["c"], [parse "../a"] has no
    directories and filename ["a"], and [parse "a/b/../c/"] has directories
    [["a";"c"]]. *)
Theorem parse_resolves_dotdot (drives : bool) :
  (forall ts t,
     resolve (ts ++ [t]) = if is_dotdot t then removelast (resolve ts) else resolve ts ++ [t])
  /\ (forall s, ends_with_slash (path_body drives s) = true ->
        directories (parse drives s) = resolve (segments (path_body drives s))
        /\ filename (parse drives s) = [])
  /\ (forall s ts f, ends_with_slash (path_body drives s) = false ->
        segments (path_body drives s) = ts ++ [f] ->
        if is_dot_token f
        then directories (parse drives s) = resolve (ts ++ [f])
             /\ filename (parse drives s) = []
        else directories (parse drives s) = resolve ts
             /\ filename (parse drives s) = f)
  /\ (forall s, segments (path_body drives s) = [] ->
        directories (parse drives s) = [] /\ filename (parse drives s) = [])
  /\ directories (parse drives (lit "a/b/../c"%string)) = [lit "a"%string]
  /\ filename (parse drives (lit "a/b/../c"%string)) = lit "c"%string
  /\ directories (parse drives (lit "../a"%string)) = []
  /\ filename (parse drives (lit "../a"%string)) = lit "a"%string
  /\ directories (parse drives (lit "a/b/../c/"%string)) = [lit "a"%string; lit "c"%string]
  /\ directories (parse drives (lit "../a/"%string)) = [lit "a"%string].
Proof.
  split.
  { intros ts t. unfold resolve. rewrite resolve_onto_app. simpl.
    now destruct (is_dotdot t). }
  split.
  { intros s H. destruct (parse_split_filename drives s) as [D F].
    rewrite D, F. unfold split_filename. rewrite H. split; reflexivity. }
  split.
  { intros s ts f H Hs. destruct (parse_split_filename drives s) as [D F].
    rewrite D, F. unfold split_filename. rewrite H, Hs, rev_unit.
    destruct (is_dot_token f); cbn [fst snd]; [split; reflexivity|].
    rewrite rev_involutive. split; reflexivity. }
  split.
  { intros s Hs. destruct (parse_split_filename drives s) as [D F].
    rewrite D, F. unfold split_filename. rewrite Hs.
    destruct (ends_with_slash (path_body drives s)); split; reflexivity. }
  destruct drives; repeat split; vm_compute; reflexivity.
Qed.
